(** * atena2vcard: address-book CSV rows to vCard 3.0

    A shallow embedding of [atena2vcard.py] and the properties of its
    row-to-vCard transformer and of its CSV decoder.

    Python's [str] is a sequence of Unicode code points, so a string is a
    [list N] here, and [bytes] is a [list byte].  A string constant of the
    source is written [u "..."]: the UTF-8 bytes of the literal, decoded.
    Rocq strings have no escape sequences: [u "\n"] is a backslash and the
    letter n, the line feed is the code point [0x0A].

    The interpreter's part is modelled beside the source: the [utf-8]
    codec, the character classes behind [str.strip] and [\d], the fragment
    of [re] that the three patterns of the source need, [csv.reader] and
    [csv.DictReader] with the default dialect.  The two Japanese codecs are
    parameters of the decoder.

    A row is a finite map from column names to cell texts; the lines of a
    record are a list that every section of [row_to_vcard] extends. *)

From Stdlib Require Import NArith ZArith List Lia.
From Stdlib Require Import Strings.String Strings.Byte.
From stdpp Require Import base option list gmap.

Local Open Scope N_scope.

(** ** Python strings *)

Abbreviation char := N.
Abbreviation str := (list N).
Abbreviation bytes := (list byte).

(** [bool(s)] for a string: the empty string is falsy. *)
Definition truthy (s : str) : bool :=
  match s with [] => false | _ :: _ => true end.

Definition str_eqb (a b : str) : bool := bool_decide (a = b).

(** *** The [utf-8] codec (strict error handling)

    Shortest form only, no surrogates, nothing above U+10FFFF; any other
    byte sequence raises [UnicodeDecodeError], here [None]. *)

Definition cont (b : N) : bool := (0x80 <=? b) && (b <=? 0xBF).
Definition within (lo hi b : N) : bool := (lo <=? b) && (b <=? hi).

Fixpoint utf_8_decode (bs : list N) : option str :=
  match bs with
  | [] => Some []
  | b0 :: r0 =>
    if b0 <? 0x80 then cons b0 <$> utf_8_decode r0
    else match r0 with
    | [] => None
    | b1 :: r1 =>
      if within 0xC2 0xDF b0 then
        if cont b1
        then cons ((b0 - 0xC0) * 64 + (b1 - 0x80)) <$> utf_8_decode r1
        else None
      else match r1 with
      | [] => None
      | b2 :: r2 =>
        if within 0xE0 0xEF b0 then
          if (if b0 =? 0xE0 then within 0xA0 0xBF b1
              else if b0 =? 0xED then within 0x80 0x9F b1
              else cont b1) && cont b2
          then cons ((b0 - 0xE0) * 4096 + (b1 - 0x80) * 64 + (b2 - 0x80))
                 <$> utf_8_decode r2
          else None
        else match r2 with
        | [] => None
        | b3 :: r3 =>
          if within 0xF0 0xF4 b0 then
            if (if b0 =? 0xF0 then within 0x90 0xBF b1
                else if b0 =? 0xF4 then within 0x80 0x8F b1
                else cont b1) && cont b2 && cont b3
            then cons ((b0 - 0xF0) * 262144 + (b1 - 0x80) * 4096
                       + (b2 - 0x80) * 64 + (b3 - 0x80))
                   <$> utf_8_decode r3
            else None
          else None
        end
      end
    end
  end.

Definition decode_utf_8 (b : bytes) : option str :=
  utf_8_decode (map Byte.to_N b).

(** A source-level string literal. *)
Definition u (s : string) : str :=
  default [] (decode_utf_8 (list_byte_of_string s)).
Arguments u s%_string.

(** *** Character classes of the Unicode database

    [str.strip()] without argument removes the characters for which
    [str.isspace()] holds; [\d] in a [str] pattern matches the characters of
    category Nd (Unicode 15.0, the database of the first Python release that
    accepts the source file: it has a backslash inside an f-string
    expression). *)

Definition Py_UNICODE_ISSPACE (c : char) : bool :=
  within 0x09 0x0D c || within 0x1C 0x20 c || (c =? 0x85) || (c =? 0xA0)
  || (c =? 0x1680) || within 0x2000 0x200A c || within 0x2028 0x2029 c
  || (c =? 0x202F) || (c =? 0x205F) || (c =? 0x3000).

(** First code point of every run of ten decimal digits. *)
Definition decimal_zeros : list N :=
  [0x30; 0x660; 0x6F0; 0x7C0; 0x966; 0x9E6; 0xA66; 0xAE6; 0xB66; 0xBE6;
   0xC66; 0xCE6; 0xD66; 0xDE6; 0xE50; 0xED0; 0xF20; 0x1040; 0x1090; 0x17E0;
   0x1810; 0x1946; 0x19D0; 0x1A80; 0x1A90; 0x1B50; 0x1BB0; 0x1C40; 0x1C50;
   0xA620; 0xA8D0; 0xA900; 0xA9D0; 0xA9F0; 0xAA50; 0xABF0; 0xFF10; 0x104A0;
   0x10D30; 0x11066; 0x110F0; 0x11136; 0x111D0; 0x112F0; 0x11450; 0x114D0;
   0x11650; 0x116C0; 0x11730; 0x118E0; 0x11950; 0x11C50; 0x11D50; 0x11DA0;
   0x11F50; 0x16A60; 0x16AC0; 0x16B50; 0x1D7CE; 0x1D7D8; 0x1D7E2; 0x1D7EC;
   0x1D7F6; 0x1E140; 0x1E2F0; 0x1E4F0; 0x1E950; 0x1FBF0].

Definition Py_UNICODE_ISDECIMAL (c : char) : bool :=
  existsb (fun z => within z (z + 9) c) decimal_zeros.

(** *** String methods *)

Fixpoint lstrip (s : str) : str :=
  match s with
  | c :: s' => if Py_UNICODE_ISSPACE c then lstrip s' else s
  | [] => []
  end.

Definition rstrip (s : str) : str := rev (lstrip (rev s)).

(** [s.strip()] *)
Definition strip (s : str) : str := rstrip (lstrip s).

(** [s.startswith(p)] *)
Fixpoint startswith (s p : str) {struct p} : bool :=
  match p, s with
  | [], _ => true
  | c :: p', d :: s' => (d =? c) && startswith s' p'
  | _ :: _, [] => false
  end.

(** [s.replace(old, new)] for a one-character [old]. *)
Definition replace (old : char) (new : str) (s : str) : str :=
  flat_map (fun c => if c =? old then new else [c]) s.

(** [s.split(sep)] for a one-character [sep]: never the empty list. *)
Fixpoint split (sep : char) (s : str) : list str :=
  match s with
  | [] => [[]]
  | c :: s' =>
    if c =? sep then [] :: split sep s'
    else match split sep s' with
         | h :: t => (c :: h) :: t
         | [] => [[c]]
         end
  end.

(** [sep.join(l)] *)
Fixpoint join (sep : str) (l : list str) : str :=
  match l with
  | [] => []
  | x :: l' =>
    match l' with
    | [] => x
    | _ :: _ => x ++ sep ++ join sep l'
    end
  end.

(** [c in s] and [s.find(c)] for a one-character [c]; [find] is [-1] when
    the character does not occur. *)
Definition contains (c : char) (s : str) : bool :=
  existsb (N.eqb c) s.

Fixpoint find (c : char) (s : str) : Z :=
  match s with
  | [] => (-1)%Z
  | d :: s' =>
    if d =? c then 0%Z
    else let p := find c s' in if (p <? 0)%Z then (-1)%Z else (p + 1)%Z
  end.

(** Slice bounds as Python clamps them: a negative bound counts from the
    end. *)
Definition slice_index (n : Z) (s : str) : nat :=
  let len := Z.of_nat (length s) in
  Z.to_nat (if (n <? 0)%Z then Z.max 0 (len + n) else Z.min n len).

(** [s[:n]] and [s[n:]] *)
Definition slice_to (n : Z) (s : str) : str := take (slice_index n s) s.
Definition slice_from (n : Z) (s : str) : str := drop (slice_index n s) s.

(** [str(n)] for a non-negative integer. *)
Fixpoint digits_fuel (fuel : nat) (n : N) (acc : str) : str :=
  match fuel with
  | O => acc
  | S fuel' =>
    let acc' := (0x30 + n mod 10) :: acc in
    if n <? 10 then acc' else digits_fuel fuel' (n / 10) acc'
  end.

Definition str_of_N (n : N) : str := digits_fuel (S (N.to_nat (N.log2 n))) n [].

(** ** The fragment of [re] the source uses

    A backtracking matcher in continuation-passing style: alternatives are
    tried left to right, [?] and [.*] are greedy, [.*?] takes the shortest
    extension first, [.] matches anything but a line feed, [$] matches at
    the end or just before a final line feed.  Repetition is only needed
    (and only provided) for [.]. *)

Inductive regex : Type :=
| Eps
| Lit (c : char)
| Dot
| Digit
| Bol
| Eol
| Cat (a b : regex)
| Alt (a b : regex)
| Opt (a : regex)
| DotStar
| DotStarLazy
| Group (n : nat) (a : regex).

Definition caps := list (nat * str).

Section Matcher.
(** The whole subject string: [^] has to know where it starts. *)
Variable subject : str.

Fixpoint exec (r : regex) (s : str) (g : caps)
    (k : str → caps → option (str * caps)) {struct r} : option (str * caps) :=
  match r with
  | Eps => k s g
  | Lit c =>
    match s with
    | d :: s' => if d =? c then k s' g else None
    | [] => None
    end
  | Dot =>
    match s with
    | d :: s' => if d =? 0x0A then None else k s' g
    | [] => None
    end
  | Digit =>
    match s with
    | d :: s' => if Py_UNICODE_ISDECIMAL d then k s' g else None
    | [] => None
    end
  | Bol => if Nat.eqb (length s) (length subject) then k s g else None
  | Eol =>
    match s with
    | [] => k s g
    | d :: [] => if d =? 0x0A then k s g else None
    | _ :: _ :: _ => None
    end
  | Cat a b => exec a s g (fun s' g' => exec b s' g' k)
  | Alt a b =>
    match exec a s g k with
    | Some m => Some m
    | None => exec b s g k
    end
  | Opt a =>
    match exec a s g k with
    | Some m => Some m
    | None => k s g
    end
  | DotStar =>
    (fix greedy (t : str) : option (str * caps) :=
       match t with
       | d :: t' =>
         if d =? 0x0A then k t g
         else match greedy t' with
              | Some m => Some m
              | None => k t g
              end
       | [] => k t g
       end) s
  | DotStarLazy =>
    (fix lazy (t : str) : option (str * caps) :=
       match k t g with
       | Some m => Some m
       | None =>
         match t with
         | d :: t' => if d =? 0x0A then None else lazy t'
         | [] => None
         end
       end) s
  | Group n a =>
    exec a s g
      (fun s' g' => k s' ((n, take (length s - length s') s) :: g'))
  end.

(** One attempt at the position where [s] starts: the unmatched rest and
    the groups. *)
Definition match_at (r : regex) (s : str) : option (str * caps) :=
  exec r s [] (fun s' g => Some (s', g)).
End Matcher.

(** Truth value of a match object or [None]. *)
Definition found {A} (m : option A) : bool :=
  match m with Some _ => true | None => false end.

(** [re.match(r, s)] *)
Definition re_match (r : regex) (s : str) : option (str * caps) :=
  match_at s r s.

(** [re.search(r, s)]: the first position with a match, the end of the
    string included. *)
Definition re_search (r : regex) (s : str) : option (str * caps) :=
  (fix scan (t : str) : option (str * caps) :=
     match match_at s r t with
     | Some m => Some m
     | None => match t with _ :: t' => scan t' | [] => None end
     end) s.

(** [m.group(n)] for a group that took part in the match: the latest
    capture of that group. *)
Fixpoint capture (n : nat) (g : caps) : option str :=
  match g with
  | [] => None
  | (i, t) :: g' => if Nat.eqb i n then Some t else capture n g'
  end.

Definition group (n : nat) (m : str * caps) : str :=
  default [] (capture n (snd m)).

(** [re.findall(r, s)] for a pattern without groups that cannot match the
    empty string: the matched texts from left to right, the scan going on
    behind each match ([skip] counts the characters of a match still to be
    passed over). *)
Fixpoint findall_from (subject : str) (r : regex) (t : str) (skip : nat)
    : list str :=
  match skip, t with
  | S n, _ :: t' => findall_from subject r t' n
  | S _, [] => []
  | O, _ =>
    match match_at subject r t with
    | Some (rest, _) =>
      let len := (length t - length rest)%nat in
      take len t ::
        match t with
        | _ :: t' => findall_from subject r t' (len - 1)
        | [] => []
        end
    | None =>
      match t with
      | _ :: t' => findall_from subject r t' 0
      | [] => []
      end
    end
  end.

Definition re_findall (r : regex) (s : str) : list str :=
  findall_from s r s 0.

(** A literal word, and an alternation of patterns. *)
Definition word (w : str) : regex := foldr (fun c r => Cat (Lit c) r) Eps w.

Fixpoint one_of (rs : list regex) : regex :=
  match rs with
  | [] => Eps
  | r :: rs' => match rs' with [] => r | _ :: _ => Alt r (one_of rs') end
  end.

(** [^(\+81)?0?(90|80|70)] *)
Definition mobile_re : regex :=
  Cat Bol
   (Cat (Opt (Group 1 (word (u "+81"))))
    (Cat (Opt (Lit 0x30))
         (Group 2 (one_of [word (u "90"); word (u "80"); word (u "70")])))).

(** The two address patterns: a group of the four prefecture suffixes
    都, 道, 府, 県 for [re.search]; and for [re.match] the anchored pattern
    of three groups: a lazy run of [.], one suffix, a greedy run of [.] up
    to [$]. *)
Definition pref_suffix : regex :=
  one_of [word (u "都"); word (u "道"); word (u "府"); word (u "県")].

Definition pref_re : regex := Group 1 pref_suffix.

Definition address_re : regex :=
  Cat Bol
   (Cat (Group 1 DotStarLazy)
    (Cat (Group 2 pref_suffix) (Cat (Group 3 DotStar) Eol))).

(** ** The source, function by function *)

(** A row: column name to cell text. *)
Abbreviation row := (gmap str str).

(** [row.get(k, d)], and [x or d] for [x = row.get(k)], which is [None]
    when the column is missing. *)
Definition get (r : row) (k d : str) : str := default d (r !! k).

Definition py_or (a b : str) : str := if truthy a then a else b.

Definition get_or (r : row) (k d : str) : str :=
  match r !! k with
  | Some v => py_or v d
  | None => d
  end.

(** [esc]: four replacements, one after the other. *)
Definition esc (s : str) : str :=
  let s := py_or s [] in
  replace 0x2C (u "\,")
    (replace 0x3B (u "\;")
      (replace 0x0A (u "\n")
        (replace 0x5C (u "\\") s))).

(** [split_multi], for a string argument. *)
Definition split_multi (value : str) : list str :=
  map strip (filter (fun v => truthy (strip v) = true) (split 0x3B value)).

(** [normalize_phone].  [str] has no attribute [startsWith], so the
    conditional expression always takes its [startswith] branch. *)
Definition normalize_phone (num : str) : str :=
  if negb (truthy (strip num)) then []
  else
    let lead_plus := startswith (strip num) (u "+") in
    let digits := join [] (re_findall Digit num) in
    if lead_plus && truthy digits then u "+" ++ digits else digits.

(** [detect_phone_type] *)
Definition detect_phone_type (num : str) : str :=
  if found (re_match mobile_re num) then u "CELL" else u "WORK".

(** [adr_from_row], in two steps: the values of its local variables when
    it reaches the emptiness test, then the line. *)
Record adr_locals := {
  addr_type : str;
  postal : str;
  a3 : str;
  pref : str;
  city : str;
  street : str;
  street_full : str
}.

Definition adr_split (a1 : str) : str * str * str :=
  if found (re_search pref_re a1) then
    match re_match address_re a1 with
    | Some m =>
      let pref := group 1 m ++ group 2 m in
      let rest := group 3 m in
      if contains 0x533A rest then
        let p := find 0x533A rest in
        (pref, slice_to (p + 1) rest, slice_from (p + 1) rest)
      else (pref, [], rest)
    | None => ([], [], [])
    end
  else ([], [], a1).

Definition adr_vars (r : row) : adr_locals :=
  let addr_type :=
    if str_eqb (strip (get r (u "宛先") [])) (u "自宅")
    then u "HOME" else u "WORK" in
  let postal :=
    strip
      (py_or (get r ((if str_eqb addr_type (u "HOME")
                      then u "自宅" else u "会社") ++ u "〒") [])
         (py_or (get r (u "会社〒") []) (get r (u "自宅〒") []))) in
  let a1 := strip (py_or (get r (addr_type ++ u "住所1") [])
                         (get r (u "会社住所1") [])) in
  let a2 := strip (py_or (get r (addr_type ++ u "住所2") [])
                         (get r (u "会社住所2") [])) in
  let a3 := strip (py_or (get r (addr_type ++ u "住所3") [])
                         (get r (u "会社住所3") [])) in
  let '(pref, city, street) := adr_split a1 in
  let street_full := join (u " ") (filter (fun x => truthy x = true) [street; a2]) in
  {| addr_type := addr_type; postal := postal; a3 := a3; pref := pref;
     city := city; street := street; street_full := street_full |}.

Definition adr_from_row (r : row) : str :=
  let v := adr_vars r in
  if negb (existsb truthy [street_full v; city v; pref v; postal v]) then []
  else
    u "ADR;TYPE=" ++ addr_type v ++ u ":;;" ++ esc (street_full v) ++ u ";"
      ++ esc (city v) ++ u ";" ++ esc (pref v) ++ u ";" ++ esc (postal v)
      ++ u ";日本".

(** [row_to_vcard].  The list [L] of lines is threaded through the
    statements in source order; [L.append(x)] is [L ++ [x]]. *)

Definition append_if (c : bool) (line : str) (L : list str) : list str :=
  if c then L ++ [line] else L.

Definition name_lines (r : row) (L : list str) : list str :=
  let family := strip (get_or r (u "姓") []) in
  let given := strip (get_or r (u "名") []) in
  let L :=
    if truthy family || truthy given
    then (L ++ [u "N:" ++ esc family ++ u ";" ++ esc given ++ u ";;;"])
           ++ [u "FN:" ++ esc given ++ u " " ++ esc family]
    else L in
  let nick := strip (get_or r (u "ニックネーム") []) in
  let L := append_if (truthy nick) (u "NICKNAME:" ++ esc nick) L in
  let fk := strip (get_or r (u "姓かな") []) in
  let gk := strip (get_or r (u "名かな") []) in
  let L := append_if (truthy fk) (u "X-PHONETIC-LAST-NAME:" ++ esc fk) L in
  append_if (truthy gk) (u "X-PHONETIC-FIRST-NAME:" ++ esc gk) L.

Definition org_lines (r : row) (L : list str) : list str :=
  let company := strip (get_or r (u "会社名") []) in
  let dept1 := strip (get_or r (u "部署名1") []) in
  let dept2 := strip (get_or r (u "部署名2") []) in
  let dept := join (u " ") (filter (fun d => truthy d = true) [dept1; dept2]) in
  let L := append_if (truthy company || truthy dept)
             (u "ORG:" ++ esc company ++ u ";" ++ esc dept) L in
  let org_kana := strip (get_or r (u "会社名かな") []) in
  let L := append_if (truthy org_kana) (u "X-PHONETIC-ORG:" ++ esc org_kana) L in
  let title := strip (get_or r (u "役職名") []) in
  append_if (truthy title) (u "TITLE:" ++ esc title) L.

(** The phone loops. *)
Definition phone_columns : list (str * str) :=
  [(u "WORK", u "会社電話"); (u "HOME", u "自宅電話"); (u "CELL", u "携帯番号")].

Definition tel_type (label num : str) : str :=
  if str_eqb label (u "CELL") || str_eqb (detect_phone_type num) (u "CELL")
  then u "CELL" else label.

Definition tel_step (label : str) (L : list str) (raw : str) : list str :=
  let num := normalize_phone raw in
  if negb (truthy num) then L
  else L ++ [u "TEL;TYPE=" ++ tel_type label num ++ u ",VOICE:" ++ num].

Definition tel_lines (r : row) (L : list str) : list str :=
  fold_left
    (fun L '(label, key) =>
       fold_left (tel_step label) (split_multi (py_or (get r key []) [])) L)
    phone_columns L.

(** The e-mail loops. *)
Definition mail_columns : list (str * str) :=
  [(u "WORK", u "会社E-mail"); (u "HOME", u "自宅E-mail");
   (u "OTHER", u "その他E-mail")].

Definition mail_step (label : str) (L : list str) (mail : str) : list str :=
  append_if (truthy mail)
    (u "EMAIL;TYPE=INTERNET," ++ label ++ u ":" ++ esc mail) L.

Definition mail_lines (r : row) (L : list str) : list str :=
  fold_left
    (fun L '(label, key) =>
       fold_left (mail_step label) (split_multi (py_or (get r key []) [])) L)
    mail_columns L.

Definition adr_lines (r : row) (L : list str) : list str :=
  let adr := adr_from_row r in
  append_if (truthy adr) adr L.

(** [range(a, b)] *)
Definition range (a b : N) : list N :=
  map (fun i => a + N.of_nat i) (seq 0 (N.to_nat (b - a))).

(** The notes.  The separator is the literal of the source, which sits
    inside the braces of an f-string and is read there as any string
    literal: the backslash escape makes it a backslash followed by [n]. *)
Definition note_lines (r : row) (L : list str) : list str :=
  let notes := map (fun i => strip (get_or r (u "備考" ++ str_of_N i) []))
                   (range 1 4) in
  let notes := filter (fun n => truthy n = true) notes in
  append_if (negb (bool_decide (notes = [])))
    (u "NOTE:" ++ esc (join (u "\n") notes)) L.

(** The memo loop. *)
Definition memo_step (r : row) (L : list str) (i : N) : list str :=
  let val := strip (get_or r (u "メモ" ++ str_of_N i) []) in
  if truthy val then
    let idx := i + 4 in
    (L ++ [u "item" ++ str_of_N idx ++ u ".X-ABRELATEDNAMES:" ++ esc val])
      ++ [u "item" ++ str_of_N idx ++ u ".X-ABLabel:メモ" ++ str_of_N i]
  else L.

Definition memo_lines (r : row) (L : list str) : list str :=
  fold_left (memo_step r) (range 1 6) L.

(** The lines of the record, and [row_to_vcard]. *)
Definition vcard_lines (r : row) : list str :=
  let L := [u "BEGIN:VCARD"; u "VERSION:3.0"] in
  let L := name_lines r L in
  let L := org_lines r L in
  let L := tel_lines r L in
  let L := mail_lines r L in
  let L := adr_lines r L in
  let L := note_lines r L in
  let L := memo_lines r L in
  L ++ [u "END:VCARD"].

Definition row_to_vcard (r : row) : str :=
  join [0x0A] (vcard_lines r).

(** ** The CSV decoder

    [io.StringIO(text)] iterated: the lines of [text], each with its line
    feed (no newline translation; a carriage return ends no line). *)

Fixpoint readlines (s : str) : list str :=
  match s with
  | [] => []
  | c :: s' =>
    if c =? 0x0A then [c] :: readlines s'
    else match readlines s' with
         | l :: ls => (c :: l) :: ls
         | [] => [[c]]
         end
  end.

(** *** [csv.reader] with the default dialect

    Delimiter comma, quote character the double quote (doubled inside a
    quoted field), no escape character, no skipping of initial spaces, not
    strict, minimal quoting.  The states of the parser that need an escape character are left out. *)

Inductive ParserState : Type :=
| START_RECORD
| START_FIELD
| IN_FIELD
| IN_QUOTED_FIELD
| QUOTE_IN_QUOTED_FIELD
| EAT_CRNL.

Global Instance ParserState_eq_dec : EqDecision ParserState.
Proof. solve_decision. Defined.

Record ReaderObj := {
  state : ParserState;
  fields : list str;
  field : str
}.

Definition field_limit : N := 131072.

Definition set_state (st : ParserState) (self : ReaderObj) : ReaderObj :=
  {| state := st; fields := fields self; field := field self |}.

(** [parse_reset] *)
Definition parse_reset : ReaderObj :=
  {| state := START_RECORD; fields := []; field := [] |}.

(** [parse_save_field] *)
Definition parse_save_field (self : ReaderObj) : ReaderObj :=
  {| state := state self; fields := fields self ++ [field self]; field := [] |}.

(** [parse_add_char]: [csv.Error] when the field is at the limit. *)
Definition parse_add_char (c : char) (self : ReaderObj) : option ReaderObj :=
  if field_limit <=? N.of_nat (length (field self)) then None
  else Some {| state := state self; fields := fields self;
               field := field self ++ [c] |}.

Definition is_newline (c : char) : bool := (c =? 0x0A) || (c =? 0x0D).

(** What a field does with its first character; [START_RECORD] falls
    through to it. *)
Definition start_field (c : option char) (self : ReaderObj) : option ReaderObj :=
  match c with
  | None => Some (set_state START_RECORD (parse_save_field self))
  | Some c =>
    if is_newline c then Some (set_state EAT_CRNL (parse_save_field self))
    else if c =? 0x22 then Some (set_state IN_QUOTED_FIELD self)
    else if c =? 0x2C then Some (set_state START_FIELD (parse_save_field self))
    else set_state IN_FIELD <$> parse_add_char c self
  end.

(** [parse_process_char]; the end of a line is [None]. *)
Definition parse_process_char (self : ReaderObj) (c : option char)
    : option ReaderObj :=
  match state self with
  | START_RECORD =>
    match c with
    | None => Some self
    | Some c' =>
      if is_newline c' then Some (set_state EAT_CRNL self)
      else start_field c self
    end
  | START_FIELD => start_field c self
  | IN_FIELD =>
    match c with
    | None => Some (set_state START_RECORD (parse_save_field self))
    | Some c =>
      if is_newline c then Some (set_state EAT_CRNL (parse_save_field self))
      else if c =? 0x2C then Some (set_state START_FIELD (parse_save_field self))
      else parse_add_char c self
    end
  | IN_QUOTED_FIELD =>
    match c with
    | None => Some self
    | Some c =>
      if c =? 0x22 then Some (set_state QUOTE_IN_QUOTED_FIELD self)
      else parse_add_char c self
    end
  | QUOTE_IN_QUOTED_FIELD =>
    match c with
    | None => Some (set_state START_RECORD (parse_save_field self))
    | Some c =>
      if c =? 0x22 then set_state IN_QUOTED_FIELD <$> parse_add_char c self
      else if c =? 0x2C then Some (set_state START_FIELD (parse_save_field self))
      else if is_newline c then Some (set_state EAT_CRNL (parse_save_field self))
      else set_state IN_FIELD <$> parse_add_char c self
    end
  | EAT_CRNL =>
    match c with
    | None => Some (set_state START_RECORD self)
    | Some c => if is_newline c then Some self else None
    end
  end.

(** One line through the parser: its characters, then the end of line. *)
Fixpoint feed (self : ReaderObj) (line : str) : option ReaderObj :=
  match line with
  | [] => parse_process_char self None
  | c :: line' => parse_process_char self (Some c) ≫= fun self' => feed self' line'
  end.

(** [list(csv.reader(lines))]: [Reader_iternext] again and again.  A record
    is complete when a line leaves the parser in [START_RECORD]; otherwise
    (inside a quoted field) the next line continues it, and the end of the
    input closes it.  [None] is [csv.Error]. *)
Fixpoint reader_records (self : ReaderObj) (lines : list str)
    : option (list (list str)) :=
  match lines with
  | [] =>
    if negb (Nat.eqb (length (field self)) 0)
       || bool_decide (state self = IN_QUOTED_FIELD)
    then Some [fields (parse_save_field self)]
    else Some []
  | line :: lines' =>
    feed self line ≫= fun self' =>
    if bool_decide (state self' = START_RECORD)
    then cons (fields self') <$> reader_records parse_reset lines'
    else reader_records self' lines'
  end.

Definition csv_reader (text : str) : option (list (list str)) :=
  reader_records parse_reset (readlines text).

(** *** [csv.DictReader]

    A dictionary keeps its keys in insertion order; assigning to a key that
    is present replaces the value where it stands. *)

Inductive value : Type :=
| VNone
| VStr (s : str)
| VList (l : list str).

Abbreviation pydict K V := (list (K * V)).

Fixpoint dict_set {K V} `{EqDecision K} (k : K) (v : V) (d : pydict K V)
    : pydict K V :=
  match d with
  | [] => [(k, v)]
  | (k', v') :: d' =>
    if decide (k' = k) then (k', v) :: d' else (k', v') :: dict_set k v d'
  end.

(** A run of assignments [d[k] = v] on [d]. *)
Definition assign {K V} `{EqDecision K} (items : list (K * V)) (d : pydict K V)
    : pydict K V :=
  fold_left (fun d kv => dict_set kv.1 kv.2 d) items d.

(** The dictionary of one record: the cells under their field names,
    surplus cells as a list under the rest key [None], missing cells as the
    rest value [None]. *)
Definition DictReader_row (fieldnames rec : list str)
    : pydict (option str) value :=
  let d := assign (zip (Some <$> fieldnames) (VStr <$> rec)) [] in
  let lf := length fieldnames in
  let lr := length rec in
  if (lf <? lr)%nat then dict_set None (VList (drop lf rec)) d
  else if (lr <? lf)%nat
       then assign ((fun key => (Some key, VNone)) <$> drop lr fieldnames) d
       else d.

(** All the rows: the first record is the header, empty records are
    passed over. *)
Definition DictReader (records : list (list str))
    : list (pydict (option str) value) :=
  match records with
  | [] => []
  | fieldnames :: rest =>
    DictReader_row fieldnames <$> filter (fun rec => rec ≠ []) rest
  end.

(** *** [read_csv_rows] *)

(** The dictionary comprehension [clean]: later items win. *)
Definition clean_key (k : option str) : str :=
  strip (match k with Some k => py_or k [] | None => [] end).

Definition clean_value (v : value) : value :=
  match v with VNone => VStr [] | _ => v end.

Definition clean (d : pydict (option str) value) : gmap str value :=
  fold_left (fun m kv => <[clean_key kv.1 := clean_value kv.2]> m) d ∅.

Inductive encoding : Type := utf_8 | utf_8_sig | cp932 | shift_jis.

Definition encodings : list encoding := [utf_8; utf_8_sig; cp932; shift_jis].

(** What the [try] block can raise, and what the function raises. *)
Inductive exception : Type :=
| UnicodeDecodeError (enc : encoding)
| csv_Error.

Inductive failure : Type :=
| ValueError (last_err : option exception).

Definition BOM_UTF8 : bytes := [xef; xbb; xbf]%byte.

Section Decoder.
(** The two Japanese codecs are tables of the interpreter; the decoder is
    stated for any such pair. *)
Variables decode_cp932 decode_shift_jis : bytes → option str.

(** [file_bytes.decode(enc)] *)
Definition decode (enc : encoding) (b : bytes) : option str :=
  match enc with
  | utf_8 => decode_utf_8 b
  | utf_8_sig =>
    match b with
    | b0 :: b1 :: b2 :: b' =>
      if Byte.eqb b0 xef && Byte.eqb b1 xbb && Byte.eqb b2 xbf
      then decode_utf_8 b'
      else decode_utf_8 b
    | _ => decode_utf_8 b
    end
  | cp932 => decode_cp932 b
  | shift_jis => decode_shift_jis b
  end.

(** The body of the [try] block for one encoding. *)
Definition attempt (enc : encoding) (file_bytes : bytes)
    : exception + list (gmap str value) :=
  match decode enc file_bytes with
  | None => inl (UnicodeDecodeError enc)
  | Some text =>
    match csv_reader text with
    | None => inl csv_Error
    | Some records => inr (clean <$> DictReader records)
    end
  end.

(** The [for] loop, with [last_err]. *)
Fixpoint try_encodings (encs : list encoding) (file_bytes : bytes)
    (last_err : option exception) : failure + list (gmap str value) :=
  match encs with
  | [] => inl (ValueError last_err)
  | enc :: encs' =>
    match attempt enc file_bytes with
    | inr rows => inr rows
    | inl e => try_encodings encs' file_bytes (Some e)
    end
  end.

Definition read_csv_rows (file_bytes : bytes)
    : failure + list (gmap str value) :=
  try_encodings encodings file_bytes None.
End Decoder.

(** ** The reference [unescape] *)

(** Modelled from the spec: the repository has no [unescape]; the spec's
    round-trip property names one without defining it.  This is the reading
    of vCard text values: one pass from the left, a backslash followed by
    [n] or [N] is a line feed, a backslash followed by any other character
    is that character, a backslash at the very end stays. *)
Fixpoint unescape (s : str) : str :=
  match s with
  | [] => []
  | c :: s' =>
    if c =? 0x5C then
      match s' with
      | d :: s'' =>
        (if (d =? 0x6E) || (d =? 0x4E) then 0x0A else d) :: unescape s''
      | [] => [c]
      end
    else c :: unescape s'
  end.

(** * Properties *)

(** Source literals in a goal, computed to their code points. *)
Ltac ulit :=
  repeat match goal with
  | |- context [u ?s] =>
    let v := eval vm_compute in (u s) in change (u s) with v
  end.

Ltac ulit_in H :=
  repeat match type of H with
  | context [u ?s] =>
    let v := eval vm_compute in (u s) in change (u s) with v in H
  end.

(** Membership of a key in a list of keys, both computed. *)
Ltac in_list :=
  vm_compute;
  repeat first [ apply list_elem_of_here | apply list_elem_of_further ].

(** ** Strings *)

Lemma py_or_nil (s : str) : py_or s [] = s.
Proof. by destruct s. Qed.

Lemma replace_cons old new c s :
  replace old new (c :: s) = (if c =? old then new else [c]) ++ replace old new s.
Proof. reflexivity. Qed.

Lemma replace_app old new s t :
  replace old new (s ++ t) = replace old new s ++ replace old new t.
Proof. apply flat_map_app. Qed.

Lemma startswith_prefix p rest : startswith (p ++ rest) p = true.
Proof.
  induction p as [|c p IH]; [done|].
  simpl. by rewrite N.eqb_refl.
Qed.

Lemma startswith_app s p : startswith s p = true → ∃ rest, s = p ++ rest.
Proof.
  revert s. induction p as [|c p IH]; intros s; simpl.
  - intros _. by exists s.
  - destruct s as [|d s]; [done|].
    intros [->%N.eqb_eq [rest ->]%IH]%andb_true_iff. by exists rest.
Qed.

Lemma join_singletons (l : str) : join [] ((fun c => [c]) <$> l) = l.
Proof.
  induction l as [|c l IH]; [done|].
  simpl. destruct l as [|d l]; [done|].
  simpl in *. by rewrite IH.
Qed.

(** ** [esc] *)

(** What [esc] does to one character. *)
Definition esc_char (c : char) : str :=
  if c =? 0x5C then u "\\"
  else if c =? 0x0A then u "\n"
  else if c =? 0x3B then u "\;"
  else if c =? 0x2C then u "\,"
  else [c].

Lemma esc_cons c s : esc (c :: s) = esc_char c ++ esc s.
Proof.
  unfold esc, esc_char. rewrite !py_or_nil. ulit.
  rewrite replace_cons.
  destruct (N.eqb_spec c 0x5C) as [->|H1].
  { by rewrite !replace_app. }
  rewrite !replace_app. f_equal.
  change (replace 10 [92; 110] [c]) with
    ((if c =? 10 then [92; 110] else [c]) ++ []).
  destruct (N.eqb_spec c 10) as [->|H2]; [done|].
  rewrite app_nil_r.
  change (replace 59 [92; 59] [c]) with
    ((if c =? 59 then [92; 59] else [c]) ++ []).
  destruct (N.eqb_spec c 59) as [->|H3]; [done|].
  rewrite app_nil_r.
  change (replace 44 [92; 44] [c]) with
    ((if c =? 44 then [92; 44] else [c]) ++ []).
  destruct (N.eqb_spec c 44) as [->|H4]; [done|].
  by rewrite app_nil_r.
Qed.

Lemma esc_flat_map s : esc s = flat_map esc_char s.
Proof.
  induction s as [|c s IH]; [done|].
  by rewrite esc_cons, IH.
Qed.

Lemma esc_app s t : esc (s ++ t) = esc s ++ esc t.
Proof. rewrite !esc_flat_map. apply flat_map_app. Qed.

Lemma unescape_esc_char c t : unescape (esc_char c ++ t) = c :: unescape t.
Proof.
  unfold esc_char. ulit.
  destruct (N.eqb_spec c 0x5C) as [->|H1]; [done|].
  destruct (N.eqb_spec c 0x0A) as [->|H2]; [done|].
  destruct (N.eqb_spec c 0x3B) as [->|H3]; [done|].
  destruct (N.eqb_spec c 0x2C) as [->|H4]; [done|].
  simpl. destruct (N.eqb_spec c 92); [done|]. done.
Qed.

(** C5. [esc] is the chain of four replacements in the order backslash,
    line feed, semicolon, comma, and the reference [unescape] inverts it on
    every string. *)
Theorem esc_order_and_roundtrip (s : str) :
  esc s =
    replace 0x2C (u "\,")
      (replace 0x3B (u "\;")
        (replace 0x0A (u "\n")
          (replace 0x5C (u "\\") s)))
  ∧ unescape (esc s) = s.
Proof.
  split.
  - unfold esc. by rewrite py_or_nil.
  - induction s as [|c s IH]; [done|].
    by rewrite esc_cons, unescape_esc_char, IH.
Qed.

(** The order matters: with the backslash replaced last, the backslash that
    escapes a semicolon is doubled, and [unescape] gives back a backslash
    and a semicolon. *)
Example backslash_last_is_not_inverted :
  let esc' s :=
    replace 0x5C (u "\\")
      (replace 0x2C (u "\,") (replace 0x3B (u "\;") (replace 0x0A (u "\n") s))) in
  esc' (u ";") = u "\\;" ∧ unescape (esc' (u ";")) = u "\;"
  ∧ esc (u ";") = u "\;" ∧ unescape (esc (u ";")) = u ";".
Proof. cbv zeta. split_and!; vm_compute; reflexivity. Qed.

(** ** [normalize_phone] *)

(** The decimal digits of a string, in order. *)
Definition digits_of (s : str) : str :=
  filter (fun c => Py_UNICODE_ISDECIMAL c = true) s.

Lemma findall_digit subject t :
  findall_from subject Digit t 0 = (fun c => [c]) <$> digits_of t.
Proof.
  induction t as [|c t IH]; [done|].
  unfold digits_of. rewrite filter_cons.
  cbn [findall_from match_at exec].
  destruct (Py_UNICODE_ISDECIMAL c) eqn:Hc.
  - rewrite decide_True by done.
    replace (length (c :: t) - length t)%nat with 1%nat by (simpl; lia).
    simpl. f_equal. apply IH.
  - rewrite decide_False by done. apply IH.
Qed.

Lemma re_findall_digit s : join [] (re_findall Digit s) = digits_of s.
Proof. unfold re_findall. by rewrite findall_digit, join_singletons. Qed.

(** A check of a run of code points, by computation. *)
Fixpoint all_from (n : nat) (c : N) (p : N → bool) : bool :=
  match n with
  | O => true
  | S n' => if p c then all_from n' (N.succ c) p else false
  end.

Lemma all_from_spec n c0 p c :
  all_from n c0 p = true → c0 <= c → c < c0 + N.of_nat n → p c = true.
Proof.
  revert c0. induction n as [|n IH]; intros c0; simpl; [lia|].
  destruct (p c0) eqn:Hp; [|done].
  intros Hn Hlo Hhi.
  destruct (decide (c = c0)) as [->|Hne]; [done|].
  apply (IH (N.succ c0)); [done|lia..].
Qed.

Lemma isspace_bound c : Py_UNICODE_ISSPACE c = true → c <= 0x3000.
Proof.
  unfold Py_UNICODE_ISSPACE, within.
  rewrite !orb_true_iff, !andb_true_iff, !N.leb_le, !N.eqb_eq. lia.
Qed.

Lemma isspace_not_decimal c :
  Py_UNICODE_ISSPACE c = true → Py_UNICODE_ISDECIMAL c = false.
Proof.
  intros Hs.
  assert (H : all_from (N.to_nat 0x3001) 0
            (fun c => if Py_UNICODE_ISSPACE c
                      then negb (Py_UNICODE_ISDECIMAL c) else true) = true)
    by (vm_compute; reflexivity).
  apply (all_from_spec _ _ _ c) in H.
  - cbv beta in H. rewrite Hs in H. by apply negb_true_iff in H.
  - lia.
  - apply isspace_bound in Hs. lia.
Qed.

Lemma lstrip_nil s : lstrip s = [] → Forall (fun c => Py_UNICODE_ISSPACE c = true) s.
Proof.
  induction s as [|c s IH]; simpl; [constructor|].
  destruct (Py_UNICODE_ISSPACE c) eqn:Hc; [|done].
  intros H. constructor; auto.
Qed.

Lemma strip_nil s : strip s = [] → Forall (fun c => Py_UNICODE_ISSPACE c = true) s.
Proof.
  unfold strip, rstrip. intros H.
  apply (f_equal (@rev _)) in H. rewrite rev_involutive in H. simpl in H.
  apply lstrip_nil, Forall_rev in H. rewrite rev_involutive in H.
  destruct s as [|c s]; [constructor|].
  simpl in *. destruct (Py_UNICODE_ISSPACE c) eqn:Hc.
  - destruct (lstrip s) as [|d s'] eqn:Hl.
    + constructor; [done|]. by apply lstrip_nil.
    + exfalso. clear Hc. revert d s' Hl H.
      induction s as [|e s IH]; simpl; [done|].
      destruct (Py_UNICODE_ISSPACE e) eqn:He; [done|].
      intros d s' [= <- <-] Hall. apply Forall_cons in Hall as [Hd _]. congruence.
  - apply Forall_cons in H as [Hd _]. congruence.
Qed.

Lemma blank_no_digits s : strip s = [] → digits_of s = [].
Proof.
  intros H%strip_nil. unfold digits_of.
  induction H as [|c s Hc _ IH]; [done|].
  rewrite filter_cons, decide_False; [done|].
  rewrite (isspace_not_decimal c Hc). done.
Qed.

Lemma normalize_phone_spec num :
  normalize_phone num =
    (if startswith (strip num) (u "+") && truthy (digits_of num)
     then u "+" else []) ++ digits_of num.
Proof.
  unfold normalize_phone. rewrite re_findall_digit.
  destruct (strip num) as [|c s] eqn:Hs.
  - simpl. by rewrite blank_no_digits.
  - simpl negb. cbv iota.
    by destruct (startswith (c :: s) (u "+") && truthy (digits_of num)).
Qed.

(** C4. [normalize_phone] returns the decimal digits of its argument, with
    a plus sign in front exactly when the trimmed argument starts with one
    and there is a digit; without digits the result is empty, and the phone
    loop then appends no [TEL] line. *)
Theorem normalize_phone_digits (num : str) :
  normalize_phone num =
    (if startswith (strip num) (u "+") && negb (bool_decide (digits_of num = []))
     then u "+" else []) ++ digits_of num
  ∧ (digits_of num = [] → normalize_phone num = [])
  ∧ (strip num = [] → digits_of num = [])
  ∧ ∀ label L, digits_of num = [] → tel_step label L num = L.
Proof.
  assert (Hn : digits_of num = [] → normalize_phone num = []).
  { intros H. rewrite normalize_phone_spec, H. simpl. by rewrite andb_false_r. }
  split_and!.
  - rewrite normalize_phone_spec.
    by destruct (digits_of num).
  - done.
  - apply blank_no_digits.
  - intros label L H. unfold tel_step. by rewrite (Hn H).
Qed.

(** ** The record of a few rows *)

Example name_lines_of_row :
  vcard_lines {[ u "姓" := u "山田"; u "名" := u "太郎" ]} =
    [u "BEGIN:VCARD"; u "VERSION:3.0"; u "N:山田;太郎;;;"; u "FN:太郎 山田";
     u "END:VCARD"].
Proof. vm_compute. reflexivity. Qed.

Example record_of_empty_row :
  row_to_vcard ∅ = u "BEGIN:VCARD" ++ [0x0A] ++ u "VERSION:3.0" ++ [0x0A]
                     ++ u "END:VCARD".
Proof. vm_compute. reflexivity. Qed.

Example phone_types :
  detect_phone_type <$>
    [u "+818012345678"; u "09012345678"; u "08012345678"; u "0312345678"]
  = [u "CELL"; u "CELL"; u "CELL"; u "WORK"].
Proof. vm_compute. reflexivity. Qed.

Example phones_of_row :
  tel_lines {[ u "会社電話" := u "03-1234-5678; 090 1111 2222; n/a";
               u "携帯番号" := u "+81 3 1234" ]} []
  = [u "TEL;TYPE=WORK,VOICE:0312345678"; u "TEL;TYPE=CELL,VOICE:09011112222";
     u "TEL;TYPE=CELL,VOICE:+8131234"].
Proof. vm_compute. reflexivity. Qed.

(** ** The mobile pattern *)

(** The twelve ways a number can begin when it matches: an optional [+81],
    an optional [0], then [90], [80] or [70]. *)
Definition mobile_prefixes : list str :=
  cc ← [[]; u "+81"]; z ← [[]; u "0"]; p ← [u "90"; u "80"; u "70"];
  [cc ++ z ++ p].

Definition is_mobile (num : str) : bool :=
  existsb (startswith num) mobile_prefixes.

Ltac eqb_step :=
  match goal with
  | |- context [N.eqb ?a ?b] =>
    first [ is_var a; destruct (N.eqb_spec a b); subst
          | let v := eval vm_compute in (N.eqb a b) in
            change (N.eqb a b) with v ]
  end; cbn -[N.eqb]; try reflexivity; try congruence.

Lemma mobile_re_spec num : found (re_match mobile_re num) = is_mobile num.
Proof.
  unfold is_mobile.
  let v := eval vm_compute in mobile_prefixes in change mobile_prefixes with v.
  unfold re_match, match_at, mobile_re. ulit.
  cbn [exec word one_of foldr]. rewrite Nat.eqb_refl.
  destruct num as [|c0 n1]; [reflexivity|].
  destruct n1 as [|c1 n2]; [cbn -[N.eqb]; repeat eqb_step|].
  destruct n2 as [|c2 n3]; [cbn -[N.eqb]; repeat eqb_step|].
  destruct n3 as [|c3 n4]; [cbn -[N.eqb]; repeat eqb_step|].
  destruct n4 as [|c4 n5]; [cbn -[N.eqb]; repeat eqb_step|].
  destruct n5 as [|c5 n6]; [cbn -[N.eqb]; repeat eqb_step|].
  cbn -[N.eqb]; repeat eqb_step.
Qed.

Lemma detect_phone_type_spec num :
  detect_phone_type num = if is_mobile num then u "CELL" else u "WORK".
Proof. unfold detect_phone_type. by rewrite mobile_re_spec. Qed.

(** ** The lines of a record, section by section

    Every section only appends: what it adds does not depend on the lines
    before it. *)

Lemma append_if_app c line L :
  append_if c line L = L ++ (if c then [line] else []).
Proof. destruct c; simpl; [done|]. by rewrite app_nil_r. Qed.

Lemma fold_left_app_each {A} (f : A → list str) (l : list A) (L : list str) :
  fold_left (fun L x => L ++ f x) l L = L ++ (l ≫= f).
Proof.
  revert L. induction l as [|x l IH]; intros L; simpl.
  - by rewrite app_nil_r.
  - by rewrite IH, app_assoc.
Qed.

Lemma fold_left_ext {A B} (f g : B → A → B) (l : list A) (b : B) :
  (∀ b x, f b x = g b x) → fold_left f l b = fold_left g l b.
Proof.
  intros H. revert b. induction l as [|x l IH]; intros b; simpl; [done|].
  by rewrite H, IH.
Qed.

(** What one phone entry adds. *)
Definition tel_entry (label raw : str) : list str :=
  let num := normalize_phone raw in
  if truthy num
  then [u "TEL;TYPE=" ++ tel_type label num ++ u ",VOICE:" ++ num]
  else [].

Lemma tel_step_app label L raw : tel_step label L raw = L ++ tel_entry label raw.
Proof.
  unfold tel_step, tel_entry.
  destruct (truthy (normalize_phone raw)); simpl; [done|].
  by rewrite app_nil_r.
Qed.

Lemma tel_lines_app r L :
  tel_lines r L =
    L ++ (phone_columns ≫= fun '(label, key) =>
            split_multi (get r key []) ≫= tel_entry label).
Proof.
  unfold tel_lines.
  rewrite <- fold_left_app_each. apply fold_left_ext.
  intros b [label key]. rewrite py_or_nil.
  rewrite <- fold_left_app_each. apply fold_left_ext.
  intros; apply tel_step_app.
Qed.

(** The numbers of a cell that survive normalization. *)
Definition surviving (cell : str) : list str :=
  filter (fun num => num ≠ []) (normalize_phone <$> split_multi cell).

Definition tel_line (t num : str) : str :=
  u "TEL;TYPE=" ++ t ++ u ",VOICE:" ++ num.

Lemma tel_entries_surviving label cell :
  split_multi cell ≫= tel_entry label =
    (fun num => tel_line (tel_type label num) num) <$> surviving cell.
Proof.
  unfold surviving. induction (split_multi cell) as [|raw l IH]; [done|].
  rewrite fmap_cons, filter_cons, bind_cons. unfold tel_entry at 1.
  destruct (normalize_phone raw) as [|c num] eqn:Hn.
  - rewrite decide_False by auto. apply IH.
  - rewrite decide_True by done. cbn [truthy]. rewrite fmap_cons.
    by rewrite <- IH.
Qed.

Lemma tel_type_spec label num :
  label = u "WORK" ∨ label = u "HOME" →
  tel_type label num = if is_mobile num then u "CELL" else label.
Proof.
  intros Hl. unfold tel_type. rewrite detect_phone_type_spec.
  destruct (is_mobile num); by destruct Hl as [-> | ->].
Qed.

(** C3. The [TEL] lines are, column by column (company, home, mobile) and
    entry by entry, one line for every number that survives normalization.
    A number from the company or home column is typed [CELL] when it
    matches the mobile pattern, and keeps the label of its column, [WORK]
    or [HOME], when it does not; every number from the mobile column is typed
    [CELL].  Matching the pattern is beginning with an optional [+81], an
    optional [0], and then [90], [80] or [70]. *)
Theorem tel_type_resolution (r : row) (L : list str) :
  tel_lines r L =
    L ++ ((fun num => tel_line (if is_mobile num then u "CELL" else u "WORK") num)
            <$> surviving (get r (u "会社電話") []))
      ++ ((fun num => tel_line (if is_mobile num then u "CELL" else u "HOME") num)
            <$> surviving (get r (u "自宅電話") []))
      ++ ((fun num => tel_line (u "CELL") num)
            <$> surviving (get r (u "携帯番号") []))
  ∧ (∀ num, found (re_match mobile_re num) = is_mobile num)
  ∧ (∀ num, is_mobile num = true ↔
       ∃ cc z p rest, num = cc ++ z ++ p ++ rest
         ∧ (cc = [] ∨ cc = u "+81") ∧ (z = [] ∨ z = u "0")
         ∧ (p = u "90" ∨ p = u "80" ∨ p = u "70")).
Proof.
  split_and!.
  - rewrite tel_lines_app. unfold phone_columns.
    rewrite !bind_cons, !tel_entries_surviving. cbn [mbind list_bind].
    rewrite app_nil_r. do 2 f_equal; [|f_equal].
    + apply list_fmap_ext. intros _ num _. by rewrite tel_type_spec by auto.
    + apply list_fmap_ext. intros _ num _. by rewrite tel_type_spec by auto.
  - apply mobile_re_spec.
  - intros num. unfold is_mobile. rewrite existsb_exists. split.
    + intros (p & Hp & Hs). apply startswith_app in Hs as [rest ->].
      apply list_elem_of_In in Hp. revert Hp.
      let v := eval vm_compute in mobile_prefixes in change mobile_prefixes with v.
      ulit. intros Hp.
      repeat (apply elem_of_cons in Hp as [->|Hp];
              [first
                 [ by exists [], [], [57; 48], rest; auto 10
                 | by exists [], [], [56; 48], rest; auto 10
                 | by exists [], [], [55; 48], rest; auto 10
                 | by exists [], [48], [57; 48], rest; auto 10
                 | by exists [], [48], [56; 48], rest; auto 10
                 | by exists [], [48], [55; 48], rest; auto 10
                 | by exists [43; 56; 49], [], [57; 48], rest; auto 10
                 | by exists [43; 56; 49], [], [56; 48], rest; auto 10
                 | by exists [43; 56; 49], [], [55; 48], rest; auto 10
                 | by exists [43; 56; 49], [48], [57; 48], rest; auto 10
                 | by exists [43; 56; 49], [48], [56; 48], rest; auto 10
                 | by exists [43; 56; 49], [48], [55; 48], rest; auto 10 ]|]).
      by apply elem_of_nil in Hp.
    + intros (cc & z & p & rest & -> & Hcc & Hz & Hp).
      exists (cc ++ z ++ p). split.
      * apply list_elem_of_In.
        destruct Hcc as [-> | ->], Hz as [-> | ->], Hp as [-> | [-> | ->]];
          in_list.
      * rewrite !app_assoc. apply startswith_prefix.
Qed.

Lemma get_or_nil (r : row) k : get_or r k [] = get r k [].
Proof. unfold get_or, get. destruct (r !! k) as [v|]; [apply py_or_nil|done]. Qed.

Lemma name_lines_app r L : name_lines r L = L ++ name_lines r [].
Proof.
  unfold name_lines. rewrite !append_if_app.
  destruct (truthy _ || truthy _); simpl; by rewrite <- ?app_assoc.
Qed.

Lemma org_lines_app r L : org_lines r L = L ++ org_lines r [].
Proof. unfold org_lines. rewrite !append_if_app. simpl. by rewrite <- ?app_assoc. Qed.

Lemma mail_lines_app r L : mail_lines r L = L ++ mail_lines r [].
Proof.
  assert (H : ∀ L, mail_lines r L =
    L ++ (mail_columns ≫= fun '(label, key) =>
            split_multi (get r key []) ≫= fun mail =>
              if truthy mail
              then [u "EMAIL;TYPE=INTERNET," ++ label ++ u ":" ++ esc mail]
              else [])).
  { intros L'. unfold mail_lines.
    rewrite <- fold_left_app_each. apply fold_left_ext.
    intros b [label key]. rewrite py_or_nil.
    rewrite <- fold_left_app_each. apply fold_left_ext.
    intros; apply append_if_app. }
  by rewrite (H L), (H []).
Qed.

Lemma adr_lines_app r L : adr_lines r L = L ++ adr_lines r [].
Proof. unfold adr_lines. by rewrite !append_if_app. Qed.

Lemma note_lines_app r L : note_lines r L = L ++ note_lines r [].
Proof. unfold note_lines. by rewrite !append_if_app. Qed.

(** What one memo slot adds. *)
Definition memo_entry (r : row) (i : N) : list str :=
  let val := strip (get r (u "メモ" ++ str_of_N i) []) in
  if truthy val then
    [u "item" ++ str_of_N (i + 4) ++ u ".X-ABRELATEDNAMES:" ++ esc val;
     u "item" ++ str_of_N (i + 4) ++ u ".X-ABLabel:メモ" ++ str_of_N i]
  else [].

Lemma memo_step_app r L i : memo_step r L i = L ++ memo_entry r i.
Proof.
  unfold memo_step, memo_entry. rewrite get_or_nil.
  destruct (truthy _); simpl; [by rewrite <- app_assoc | by rewrite app_nil_r].
Qed.

Lemma memo_lines_each r L : memo_lines r L = L ++ (range 1 6 ≫= memo_entry r).
Proof.
  unfold memo_lines. rewrite <- fold_left_app_each.
  apply fold_left_ext. intros; apply memo_step_app.
Qed.

Lemma memo_lines_app r L : memo_lines r L = L ++ memo_lines r [].
Proof. by rewrite (memo_lines_each r L), (memo_lines_each r []). Qed.

Lemma tel_lines_app_nil r L : tel_lines r L = L ++ tel_lines r [].
Proof. by rewrite (tel_lines_app r L), (tel_lines_app r []). Qed.

(** The record is its sections in the fixed order, between the two lines
    of the header and the closing line. *)
Lemma vcard_lines_sections r :
  vcard_lines r =
    [u "BEGIN:VCARD"; u "VERSION:3.0"]
      ++ name_lines r [] ++ org_lines r [] ++ tel_lines r []
      ++ mail_lines r [] ++ adr_lines r [] ++ note_lines r []
      ++ memo_lines r [] ++ [u "END:VCARD"].
Proof.
  unfold vcard_lines.
  rewrite memo_lines_app, note_lines_app, adr_lines_app, mail_lines_app,
    tel_lines_app_nil, org_lines_app, name_lines_app.
  by rewrite <- !app_assoc.
Qed.

(** ** Memo slots *)

(** The pair of lines of a memo slot with text [v]. *)
Definition memo_slot (r : row) (key item : str) : list str :=
  let v := strip (get r key []) in
  if bool_decide (v = []) then []
  else [item ++ u ".X-ABRELATEDNAMES:" ++ esc v; item ++ u ".X-ABLabel:" ++ key].

Lemma memo_entry_slot r (i : N) key item :
  u "メモ" ++ str_of_N i = key → u "item" ++ str_of_N (i + 4) = item →
  memo_entry r i = memo_slot r key item.
Proof.
  intros <- <-. unfold memo_entry, memo_slot.
  destruct (strip _) as [|c v]; [done|].
  cbn [truthy]. rewrite bool_decide_eq_false_2 by done.
  by rewrite <- !app_assoc.
Qed.

(** C8, amended. The memo section is, for the slots 1 to 5 in order, the
    pair [item(i+4).X-ABRELATEDNAMES:] with the escaped trimmed text and
    [item(i+4).X-ABLabel:メモi] when column メモi trims to something, and
    nothing otherwise; the item indices are 5 to 9, so slot 3 has item
    index 7.  The section is the last before the closing line of the
    record. *)
Theorem memo_items_offset_by_four (r : row) (L : list str) :
  memo_lines r L =
    L ++ memo_slot r (u "メモ1") (u "item5")
      ++ memo_slot r (u "メモ2") (u "item6")
      ++ memo_slot r (u "メモ3") (u "item7")
      ++ memo_slot r (u "メモ4") (u "item8")
      ++ memo_slot r (u "メモ5") (u "item9")
  ∧ ∃ before, vcard_lines r = before ++ memo_lines r [] ++ [u "END:VCARD"].
Proof.
  split.
  - rewrite memo_lines_each.
    change (range 1 6) with [1; 2; 3; 4; 5].
    rewrite !bind_cons. cbn [mbind list_bind]. rewrite app_nil_r.
    rewrite (memo_entry_slot r 1 (u "メモ1") (u "item5")) by (by vm_compute).
    rewrite (memo_entry_slot r 2 (u "メモ2") (u "item6")) by (by vm_compute).
    rewrite (memo_entry_slot r 3 (u "メモ3") (u "item7")) by (by vm_compute).
    rewrite (memo_entry_slot r 4 (u "メモ4") (u "item8")) by (by vm_compute).
    rewrite (memo_entry_slot r 5 (u "メモ5") (u "item9")) by (by vm_compute).
    done.
  - exists ([u "BEGIN:VCARD"; u "VERSION:3.0"]
      ++ name_lines r [] ++ org_lines r [] ++ tel_lines r []
      ++ mail_lines r [] ++ adr_lines r [] ++ note_lines r []).
    rewrite vcard_lines_sections. by rewrite <- !app_assoc.
Qed.

(** C8, as stated, fails at memo slot 3: a row with that memo alone gives
    the two lines of item 7, and no line of item 8. *)
Lemma memo_slot_3_is_item_7 :
  let r : row := {[ u "メモ3" := u "x" ]} in
  vcard_lines r =
    [u "BEGIN:VCARD"; u "VERSION:3.0";
     u "item7.X-ABRELATEDNAMES:x"; u "item7.X-ABLabel:メモ3"; u "END:VCARD"]
  ∧ u "item8.X-ABRELATEDNAMES:x" ∉ vcard_lines r.
Proof.
  assert (H : vcard_lines ({[ u "メモ3" := u "x" ]} : row) =
    [u "BEGIN:VCARD"; u "VERSION:3.0";
     u "item7.X-ABRELATEDNAMES:x"; u "item7.X-ABLabel:メモ3"; u "END:VCARD"])
    by (vm_compute; reflexivity).
  cbv zeta. rewrite H. split; [done|].
  ulit. intros Hin.
  repeat (apply elem_of_cons in Hin as [Hin|Hin]; [discriminate Hin|]).
  by apply elem_of_nil in Hin.
Qed.

(** ** Notes *)

Lemma esc_join sep l : esc (join sep l) = join (esc sep) (esc <$> l).
Proof.
  induction l as [|x l IH]; [done|].
  destruct l as [|y l]; [done|].
  change (join sep (x :: y :: l)) with (x ++ sep ++ join sep (y :: l)).
  rewrite !esc_app, IH. done.
Qed.

(** The notes of a row: the three columns trimmed, the empty ones
    dropped. *)
Definition notes_of (r : row) : list str :=
  filter (fun n => n ≠ [])
    [strip (get r (u "備考1") []); strip (get r (u "備考2") []);
     strip (get r (u "備考3") [])].

Lemma filter_truthy (l : list str) :
  filter (fun n => truthy n = true) l = filter (fun n => n ≠ []) l.
Proof.
  apply list_filter_iff. intros x. by destruct x.
Qed.

Lemma note_lines_spec r L :
  note_lines r L =
    L ++ (if bool_decide (notes_of r = []) then []
          else [u "NOTE:" ++ join (u "\\n") (esc <$> notes_of r)]).
Proof.
  unfold note_lines. rewrite append_if_app. f_equal.
  change (range 1 4) with [1; 2; 3].
  rewrite filter_truthy. cbn [map]. rewrite !get_or_nil.
  change (u "備考" ++ str_of_N 1) with (u "備考1").
  change (u "備考" ++ str_of_N 2) with (u "備考2").
  change (u "備考" ++ str_of_N 3) with (u "備考3").
  fold (notes_of r).
  destruct (bool_decide (notes_of r = [])); [done|].
  cbn [negb]. by rewrite esc_join.
Qed.

(** C2. There is one [NOTE] line exactly when a note is left after
    trimming, but its notes, each escaped, are not separated by the escape
    sequence backslash, [n]: they are separated by three characters, two
    backslashes and [n].  The separator joined in is already a backslash
    and [n], not a line feed, and [esc] doubles its backslash.  The row with
    notes [a] and [b] gives [NOTE:a\\nb], not [NOTE:a\nb]. *)
Theorem note_separator_is_escaped_twice :
  (∀ (r : row) (L : list str),
     note_lines r L =
       L ++ (if bool_decide (notes_of r = []) then []
             else [u "NOTE:" ++ join [0x5C; 0x5C; 0x6E] (esc <$> notes_of r)]))
  ∧ let r : row := {[ u "備考1" := u "a"; u "備考2" := u "b" ]} in
    vcard_lines r =
      [u "BEGIN:VCARD"; u "VERSION:3.0"; u "NOTE:a\\nb"; u "END:VCARD"]
    ∧ u "NOTE:a\\nb" = u "NOTE:a" ++ [0x5C; 0x5C; 0x6E] ++ u "b"
    ∧ u "NOTE:a\nb" = u "NOTE:a" ++ [0x5C; 0x6E] ++ u "b".
Proof.
  split.
  - intros r L. apply note_lines_spec.
  - cbv zeta. split_and!; vm_compute; reflexivity.
Qed.

(** ** The address line *)

(** The keys the address lookups build from the type tag, and the
    company address lines they fall back to. *)
Definition tagged_address_keys : list str :=
  [u "HOME住所1"; u "HOME住所2"; u "HOME住所3";
   u "WORK住所1"; u "WORK住所2"; u "WORK住所3"].

Definition company_address_columns : list str :=
  [u "会社住所1"; u "会社住所2"; u "会社住所3"].

(** Every key of a lookup in [r], computed. *)
Ltac norm_keys r :=
  repeat match goal with
  | |- context [r !! ?k] =>
    let k' := eval vm_compute in k in progress change k with k'
  end.

(** C1. A row whose designator 宛先 trims to 自宅, whose home postal code
    is 100-0001 and whose other address columns are empty: whatever its
    home address line 自宅住所1 holds, street, locality and region of the
    [ADR] line are empty.  The line is tagged [HOME] and has the postal
    code and the country, nothing else: the address line is looked up under
    [HOME住所1], then under 会社住所1, never under 自宅住所1. *)
Theorem home_address_line_is_not_read (r : row) :
  strip (get r (u "宛先") []) = u "自宅" →
  get r (u "自宅〒") [] = u "100-0001" →
  (∀ k, k ∈ tagged_address_keys ++ company_address_columns → get r k [] = []) →
  (pref (adr_vars r), city (adr_vars r), street_full (adr_vars r)) = ([], [], [])
  ∧ adr_from_row r = u "ADR;TYPE=HOME:;;;;;100-0001;日本".
Proof.
  intros Htype Hpostal Hempty.
  unfold adr_from_row, adr_vars. rewrite Htype.
  change (str_eqb (u "自宅") (u "自宅")) with true. cbv iota.
  unfold get in *. norm_keys r. ulit_in Hpostal. rewrite Hpostal.
  repeat match goal with
  | |- context [default [] (r !! ?k)] => rewrite (Hempty k) by in_list
  end.
  split; vm_compute; reflexivity.
Qed.

(** Such a row, with the address 東京都千代田区丸の内1-1 in 自宅住所1. *)
Definition home_only_row : row :=
  {[ u "宛先" := u "自宅"; u "自宅〒" := u "100-0001";
     u "自宅住所1" := u "東京都千代田区丸の内1-1" ]}.

Lemma home_address_line_is_not_read_witness :
  adr_from_row home_only_row = u "ADR;TYPE=HOME:;;;;;100-0001;日本".
Proof.
  refine (proj2 (home_address_line_is_not_read home_only_row _ _ _)).
  - vm_compute. reflexivity.
  - vm_compute. reflexivity.
  - intros k Hk.
    repeat (apply elem_of_cons in Hk as [->|Hk]; [vm_compute; reflexivity|]).
    by apply elem_of_nil in Hk.
Defined.

(** The same address under 会社住所1 is split into region 東京都, locality
    千代田区 and street 丸の内1-1. *)
Example company_address_line_is_split :
  let r : row :=
    {[ u "宛先" := u "自宅"; u "自宅〒" := u "100-0001";
       u "会社住所1" := u "東京都千代田区丸の内1-1" ]} in
  adr_from_row r = u "ADR;TYPE=HOME:;;丸の内1-1;千代田区;東京都;100-0001;日本".
Proof. vm_compute. reflexivity. Qed.

(** The three postal columns in the order they are consulted. *)
Definition postal_columns (r : row) : list str :=
  [if str_eqb (strip (get r (u "宛先") [])) (u "自宅")
   then u "自宅〒" else u "会社〒";
   u "会社〒"; u "自宅〒"].

Definition first_nonempty (l : list str) : str :=
  default [] (head (filter (fun s => s ≠ []) l)).

(** The postal code by precedence after trimming: the first column that
    is not empty once trimmed. *)
Definition trimmed_first_postal (r : row) : str :=
  first_nonempty ((fun k => strip (get r k [])) <$> postal_columns r).

(** C7, as stated, fails: a home row whose home postal code is a single
    space and whose company postal code is 100-0001.  The space is chosen
    (it is not the empty string) and trimmed away; precedence after
    trimming gives the company code.  With nothing else in the row there is no [ADR] line at all. *)
Lemma blank_postal_cell_wins :
  let r : row :=
    {[ u "宛先" := u "自宅"; u "自宅〒" := u " "; u "会社〒" := u "100-0001" ]} in
  postal (adr_vars r) = []
  ∧ trimmed_first_postal r = u "100-0001"
  ∧ adr_from_row r = [].
Proof. cbv zeta. split_and!; vm_compute; reflexivity. Qed.

Lemma py_or_first_nonempty a b c :
  py_or a (py_or b c) = first_nonempty [a; b; c].
Proof. by destruct a, b, c. Qed.

Lemma postal_first_nonempty r :
  postal (adr_vars r) =
    strip (first_nonempty ((fun k => get r k []) <$> postal_columns r)).
Proof.
  unfold adr_vars, postal_columns.
  destruct (adr_split _) as [[p c] s]. cbn [postal].
  rewrite py_or_first_nonempty.
  destruct (str_eqb (strip (get r (u "宛先") [])) (u "自宅")); reflexivity.
Qed.

Lemma strip_nil_eq : strip [] = [].
Proof. reflexivity. Qed.

(** C7, amended. The postal code is the trimmed value of the first of the
    three columns (the column of the address type, then 会社〒, then 自宅〒)
    whose cell is not the empty string; it is the sixth component of the
    [ADR] line.  When no cell of these columns consists of white space
    only, this is the first column that is not empty after trimming. *)
Theorem postal_precedence (r : row) :
  postal_columns r =
    [if str_eqb (strip (get r (u "宛先") [])) (u "自宅")
     then u "自宅〒" else u "会社〒"; u "会社〒"; u "自宅〒"]
  ∧ postal (adr_vars r) =
      strip (first_nonempty ((fun k => get r k []) <$> postal_columns r))
  ∧ (adr_from_row r = [] ∨
     ∃ head, adr_from_row r = head ++ u ";" ++ esc (postal (adr_vars r)) ++ u ";日本")
  ∧ ((∀ k, k ∈ postal_columns r → get r k [] = [] ∨ strip (get r k []) ≠ []) →
     postal (adr_vars r) = trimmed_first_postal r).
Proof.
  split_and!.
  - reflexivity.
  - apply postal_first_nonempty.
  - unfold adr_from_row. destruct (negb _); [by left|right].
    eexists (u "ADR;TYPE=" ++ addr_type (adr_vars r) ++ u ":;;"
             ++ esc (street_full (adr_vars r)) ++ u ";"
             ++ esc (city (adr_vars r)) ++ u ";" ++ esc (pref (adr_vars r))).
    by rewrite <- !app_assoc.
  - intros H. rewrite postal_first_nonempty. unfold trimmed_first_postal.
    revert H. generalize (postal_columns r). intros l H.
    induction l as [|k l IH]; [done|].
    rewrite !fmap_cons. unfold first_nonempty. rewrite !filter_cons.
    destruct (H k) as [Hk|Hk]; [left|..].
    + rewrite Hk, strip_nil_eq. rewrite !decide_False by auto.
      apply IH. intros k' Hk'. apply H. by right.
    + rewrite !decide_True; [done|done|].
      intros Hn. rewrite Hn in Hk. by apply Hk.
Qed.

(** ** The columns the transformer reads *)

Definition columns_read : list str :=
  [u "姓"; u "名"; u "ニックネーム"; u "姓かな"; u "名かな";
   u "会社名"; u "部署名1"; u "部署名2"; u "会社名かな"; u "役職名";
   u "会社電話"; u "自宅電話"; u "携帯番号";
   u "会社E-mail"; u "自宅E-mail"; u "その他E-mail";
   u "宛先"; u "自宅〒"; u "会社〒";
   u "HOME住所1"; u "HOME住所2"; u "HOME住所3";
   u "WORK住所1"; u "WORK住所2"; u "WORK住所3";
   u "会社住所1"; u "会社住所2"; u "会社住所3";
   u "備考1"; u "備考2"; u "備考3";
   u "メモ1"; u "メモ2"; u "メモ3"; u "メモ4"; u "メモ5"].

(** Two rows with the same cells in these columns. *)
Definition agree (r1 r2 : row) : Prop :=
  ∀ k, k ∈ columns_read → r1 !! k = r2 !! k.

(** Replace every lookup in [r1] by the lookup in [r2]. *)
Ltac same_cells H r1 :=
  unfold get, get_or;
  repeat match goal with
  | |- context [r1 !! ?k] => rewrite (H k) by in_list
  end.

Section Agree.
Variables r1 r2 : row.
Hypothesis H : agree r1 r2.

Lemma name_lines_ext L : name_lines r1 L = name_lines r2 L.
Proof. unfold name_lines. same_cells H r1. done. Qed.

Lemma org_lines_ext L : org_lines r1 L = org_lines r2 L.
Proof. unfold org_lines. same_cells H r1. done. Qed.

Lemma tel_lines_ext L : tel_lines r1 L = tel_lines r2 L.
Proof.
  unfold tel_lines, phone_columns. cbn [fold_left]. same_cells H r1. done.
Qed.

Lemma mail_lines_ext L : mail_lines r1 L = mail_lines r2 L.
Proof.
  unfold mail_lines, mail_columns. cbn [fold_left]. same_cells H r1. done.
Qed.

Lemma adr_vars_ext : adr_vars r1 = adr_vars r2.
Proof.
  unfold adr_vars, get.
  rewrite (H (u "宛先")) by in_list.
  destruct (str_eqb _ (u "自宅")).
  - change (str_eqb (u "HOME") (u "HOME")) with true. cbv iota.
    same_cells H r1. done.
  - change (str_eqb (u "WORK") (u "HOME")) with false. cbv iota.
    same_cells H r1. done.
Qed.

Lemma adr_lines_ext L : adr_lines r1 L = adr_lines r2 L.
Proof. unfold adr_lines, adr_from_row. by rewrite adr_vars_ext. Qed.

Lemma note_lines_ext L : note_lines r1 L = note_lines r2 L.
Proof.
  unfold note_lines. change (range 1 4) with [1; 2; 3]. cbn [map].
  same_cells H r1. done.
Qed.

Lemma memo_lines_ext L : memo_lines r1 L = memo_lines r2 L.
Proof.
  unfold memo_lines. change (range 1 6) with [1; 2; 3; 4; 5].
  cbn [fold_left]. unfold memo_step. same_cells H r1. done.
Qed.

Lemma vcard_lines_ext : vcard_lines r1 = vcard_lines r2.
Proof.
  unfold vcard_lines.
  by rewrite name_lines_ext, org_lines_ext, tel_lines_ext, mail_lines_ext,
    adr_lines_ext, note_lines_ext, memo_lines_ext.
Qed.

Lemma row_to_vcard_ext : row_to_vcard r1 = row_to_vcard r2.
Proof. unfold row_to_vcard. by rewrite vcard_lines_ext. Qed.
End Agree.

(** ** The home address lines *)

Definition home_address_columns : list str :=
  [u "自宅住所1"; u "自宅住所2"; u "自宅住所3"].

Lemma columns_read_not_home :
  Forall (fun k => k ∉ home_address_columns) columns_read.
Proof.
  apply (bool_decide_eq_true_1 _). vm_compute. reflexivity.
Qed.

Lemma agree_outside_home (r1 r2 : row) :
  (∀ k, k ∉ home_address_columns → r1 !! k = r2 !! k) → agree r1 r2.
Proof.
  intros H k Hk. apply H.
  by apply (proj1 (Forall_forall _ _) columns_read_not_home).
Qed.

Lemma py_or_nil_l (s : str) : py_or [] s = s.
Proof. reflexivity. Qed.

(** Without the tagged keys the address comes from the company lines. *)
Lemma adr_vars_company (r : row) :
  (∀ k, k ∈ tagged_address_keys → r !! k = None) →
  (pref (adr_vars r), city (adr_vars r), street (adr_vars r))
    = adr_split (strip (get r (u "会社住所1") []))
  ∧ street_full (adr_vars r) =
      join (u " ") (filter (fun x => x ≠ [])
                      [street (adr_vars r); strip (get r (u "会社住所2") [])]).
Proof.
  intros H. unfold adr_vars, get. cbv zeta.
  destruct (str_eqb _ (u "自宅")); cbv iota;
    repeat match goal with
    | |- context [r !! ?k] => rewrite (H k) by in_list
    end;
    cbn [default]; rewrite !py_or_nil_l;
    destruct (adr_split _) as [[p c] s]; cbn [pref city street street_full];
    by rewrite filter_truthy.
Qed.

(** C9. Two rows that differ only in the home address lines 自宅住所1 to 3,
    and have none of the keys [HOME住所1] to [WORK住所3], give the same
    record: prefecture, city and street come from 会社住所1, with 会社住所2
    appended to the street, whatever the address type. *)
Theorem home_address_lines_ignored (r1 r2 : row) :
  (∀ k, k ∉ home_address_columns → r1 !! k = r2 !! k) →
  (∀ k, k ∈ tagged_address_keys → r1 !! k = None ∧ r2 !! k = None) →
  row_to_vcard r1 = row_to_vcard r2
  ∧ ∀ r, r = r1 ∨ r = r2 →
      (pref (adr_vars r), city (adr_vars r), street (adr_vars r))
        = adr_split (strip (get r (u "会社住所1") []))
      ∧ street_full (adr_vars r) =
          join (u " ") (filter (fun x => x ≠ [])
                          [street (adr_vars r); strip (get r (u "会社住所2") [])]).
Proof.
  intros Hsame Hnone. split.
  - by apply row_to_vcard_ext, agree_outside_home.
  - intros r [-> | ->]; apply adr_vars_company; intros k Hk;
      by destruct (Hnone k Hk).
Qed.

Definition home_row : row :=
  {[ u "宛先" := u "自宅"; u "自宅〒" := u "100-0001";
     u "会社住所1" := u "大阪府大阪市北区1-2" ]}.

Lemma home_address_lines_ignored_witness :
  row_to_vcard (<[u "自宅住所1" := u "東京都千代田区丸の内1-1"]> home_row)
    = row_to_vcard home_row.
Proof.
  refine (proj1 (home_address_lines_ignored
                   (<[u "自宅住所1" := u "東京都千代田区丸の内1-1"]> home_row)
                   home_row _ _)).
  - intros k Hk. apply lookup_insert_ne. intros <-. apply Hk.
    apply list_elem_of_here.
  - intros k Hk.
    repeat (apply elem_of_cons in Hk as [->|Hk]; [split; vm_compute; reflexivity|]).
    by apply elem_of_nil in Hk.
Defined.

(** ** The CSV decoder *)

Section DecoderProperties.
Variables decode_cp932 decode_shift_jis : bytes → option str.

(** The decoder with the two codecs of this section. *)
Abbreviation attempt_ := (attempt decode_cp932 decode_shift_jis).
Abbreviation decode_ := (decode decode_cp932 decode_shift_jis).
Abbreviation try_encodings_ := (try_encodings decode_cp932 decode_shift_jis).
Abbreviation read_csv_rows_ := (read_csv_rows decode_cp932 decode_shift_jis).

(** An attempt fails when the bytes do not decode, or the text does not
    parse. *)
Lemma attempt_fails enc b :
  (∃ e, attempt_ enc b = inl e) ↔
  decode_ enc b = None ∨ ∃ text, decode_ enc b = Some text ∧ csv_reader text = None.
Proof.
  unfold attempt. destruct (decode_ enc b) as [text|] eqn:Hd.
  - destruct (csv_reader text) as [records|] eqn:Hr.
    + split; [intros [e He]; discriminate He|].
      intros [Hd' | (t & Ht & Hn)]; congruence.
    + split; [|by eexists]. intros _. right. by exists text.
  - split; [by left | by eexists].
Qed.

Lemma try_encodings_fails encs b last :
  (∃ e, try_encodings_ encs b last = inl e) ↔
  Forall (fun enc => ∃ e, attempt_ enc b = inl e) encs.
Proof.
  revert last. induction encs as [|enc encs IH]; intros last;
    cbn [try_encodings].
  - split; [constructor | by eexists].
  - destruct (attempt_ enc b) as [e|rows] eqn:Ha.
    + rewrite IH. split; [intros Hall; constructor; eauto|].
      by intros [_ Hall]%Forall_cons.
    + split; [intros [e He]; discriminate He|].
      intros [[e He] _]%Forall_cons. congruence.
Qed.

Lemma try_encodings_succeeds encs b last rows :
  try_encodings_ encs b last = inr rows ↔
  ∃ i enc, encs !! i = Some enc ∧ attempt_ enc b = inr rows
           ∧ ∀ j enc', (j < i)%nat → encs !! j = Some enc' →
               ∃ e, attempt_ enc' b = inl e.
Proof.
  revert last. induction encs as [|enc encs IH]; intros last;
    cbn [try_encodings].
  - split; [discriminate|]. intros (i & enc & Hi & _). discriminate Hi.
  - destruct (attempt_ enc b) as [e|rows'] eqn:Ha.
    + rewrite IH. split.
      * intros (i & enc0 & Hi & Hok & Hbefore).
        exists (S i), enc0. split_and!; [done..|].
        intros [|j] enc' Hj Hl; simpl in Hl.
        -- injection Hl as <-. eauto.
        -- apply (Hbefore j); [lia|done].
      * intros ([|i] & enc0 & Hi & Hok & Hbefore); simpl in Hi.
        -- injection Hi as <-. congruence.
        -- exists i, enc0. split_and!; [done..|].
           intros j enc' Hj Hl. apply (Hbefore (S j)); [lia|done].
    + split.
      * intros [= <-]. exists 0%nat, enc. split_and!; [done..|].
        intros j enc' Hj. lia.
      * intros ([|i] & enc0 & Hi & Hok & Hbefore); simpl in Hi.
        -- injection Hi as <-. congruence.
        -- destruct (Hbefore 0%nat enc) as [e He]; [lia|done|]. congruence.
Qed.

End DecoderProperties.

(** C6. [read_csv_rows] raises only when the attempt fails for each of
    utf-8, utf-8-sig, cp932 and shift_jis, that is when for each of them the
    bytes do not decode or the decoded text does not parse; otherwise it
    returns the rows of the first of them, in this order, whose attempt
    succeeds.  The empty byte sequence gives no rows and no error, and so
    does a file that the first encoding to succeed reads as a header
    alone. *)
Theorem decode_error_only_if_all_fail
    (decode_cp932 decode_shift_jis : bytes → option str) (file_bytes : bytes) :
  let attempt := attempt decode_cp932 decode_shift_jis in
  let decode := decode decode_cp932 decode_shift_jis in
  let read_csv_rows := read_csv_rows decode_cp932 decode_shift_jis in
  encodings = [utf_8; utf_8_sig; cp932; shift_jis]
  ∧ ((∃ e, read_csv_rows file_bytes = inl e) ↔
     (∀ enc, enc ∈ encodings →
        decode enc file_bytes = None
        ∨ ∃ text, decode enc file_bytes = Some text ∧ csv_reader text = None))
  ∧ (∀ rows, read_csv_rows file_bytes = inr rows ↔
       ∃ i enc, encodings !! i = Some enc ∧ attempt enc file_bytes = inr rows
                ∧ ∀ j enc', (j < i)%nat → encodings !! j = Some enc' →
                    ∃ e, attempt enc' file_bytes = inl e)
  ∧ read_csv_rows [] = inr []
  ∧ (∀ i enc text header,
       encodings !! i = Some enc →
       (∀ j enc', (j < i)%nat → encodings !! j = Some enc' →
          ∃ e, attempt enc' file_bytes = inl e) →
       decode enc file_bytes = Some text →
       csv_reader text = Some [header] →
       read_csv_rows file_bytes = inr []).
Proof.
  cbv zeta. split_and!.
  - reflexivity.
  - unfold read_csv_rows. rewrite try_encodings_fails, Forall_forall.
    split; intros Hall enc Henc; apply attempt_fails, Hall, Henc.
  - intros rows. apply try_encodings_succeeds.
  - reflexivity.
  - intros i enc text header Hi Hbefore Hd Hr.
    apply try_encodings_succeeds. exists i, enc. split_and!; [done| |done].
    unfold attempt. by rewrite Hd, Hr.
Qed.

(** A header alone, in UTF-8: 姓,名 and a line feed. *)
Example header_only_file :
  read_csv_rows (fun _ => None) (fun _ => None)
    (list_byte_of_string "姓,名" ++ [x0a]%byte) = inr [].
Proof. vm_compute. reflexivity. Qed.


(** ** A file that starts with the byte-order mark *)

Lemma utf_8_decode_bom l :
  utf_8_decode (0xEF :: 0xBB :: 0xBF :: l) = cons 0xFEFF <$> utf_8_decode l.
Proof. reflexivity. Qed.

Lemma decode_utf_8_bom b text :
  decode_utf_8 (BOM_UTF8 ++ b) = Some text →
  ∃ text', text = 0xFEFF :: text' ∧ decode_utf_8 b = Some text'.
Proof.
  unfold decode_utf_8, BOM_UTF8. cbn [app map Byte.to_N].
  rewrite utf_8_decode_bom.
  destruct (utf_8_decode (map Byte.to_N b)) as [text'|]; [|discriminate].
  intros [= <-]. by exists text'.
Qed.

(** The mark is no white space: trimming keeps it. *)
Lemma lstrip_snoc l c :
  Py_UNICODE_ISSPACE c = false → ∃ l', lstrip (l ++ [c]) = l' ++ [c].
Proof.
  intros Hc. induction l as [|d l [l' IH]]; simpl.
  - rewrite Hc. by exists [].
  - destruct (Py_UNICODE_ISSPACE d); [by exists l'|].
    by exists (d :: l).
Qed.

Lemma strip_keeps_head c s :
  Py_UNICODE_ISSPACE c = false → ∃ s', strip (c :: s) = c :: s'.
Proof.
  intros Hc. unfold strip, rstrip. simpl. rewrite Hc. simpl.
  destruct (lstrip_snoc (rev s) c Hc) as [l' ->].
  rewrite rev_app_distr. simpl. by eexists.
Qed.

Lemma clean_key_bom h : ∃ h', clean_key (Some (0xFEFF :: h)) = 0xFEFF :: h'.
Proof. unfold clean_key. simpl py_or. by apply strip_keeps_head. Qed.

(** The parser, once the mark has gone into the first field: either the
    first field is saved and starts with the mark, or it is still being
    read and starts with the mark. *)
Definition first_field_marked (self : ReaderObj) : Prop :=
  (∃ h fs, fields self = (0xFEFF :: h) :: fs)
  ∨ (fields self = [] ∧ (∃ h, field self = 0xFEFF :: h)
     ∧ (state self = IN_FIELD ∨ state self = IN_QUOTED_FIELD
        ∨ state self = QUOTE_IN_QUOTED_FIELD)).

Lemma parse_process_char_marked self c self' :
  first_field_marked self →
  parse_process_char self c = Some self' →
  first_field_marked self'.
Proof.
  destruct self as [st fs f].
  unfold first_field_marked, parse_process_char, start_field,
    parse_add_char, parse_save_field, set_state.
  cbn [state fields field].
  intros [(h & fs' & ->) | (-> & (h & ->) & Hst)] Hstep.
  - left. destruct st, c as [c|];
      repeat case_match; simplify_eq/=; eauto.
  - destruct Hst as [-> | [-> | ->]]; destruct c as [c|];
      repeat case_match; simplify_eq/=; eauto 10.
Qed.

Lemma parse_process_char_eol self self' :
  parse_process_char self None = Some self' →
  state self' = START_RECORD ∨ state self' = IN_QUOTED_FIELD.
Proof.
  destruct self as [st fs f].
  unfold parse_process_char, start_field, parse_save_field, set_state.
  cbn [state fields field].
  destruct st; intros [= <-]; cbn; auto.
Qed.

Lemma feed_marked line : ∀ self self',
  first_field_marked self →
  feed self line = Some self' →
  first_field_marked self'
  ∧ (state self' = START_RECORD ∨ state self' = IN_QUOTED_FIELD).
Proof.
  induction line as [|c line IH]; intros self self' Hm; cbn [feed].
  - intros Hs. split; [by eapply parse_process_char_marked|].
    by eapply parse_process_char_eol.
  - destruct (parse_process_char self (Some c)) as [self1|] eqn:H1; [|done].
    cbn. apply IH. by eapply parse_process_char_marked.
Qed.

(** The first cell of the first record starts with the mark. *)
Definition first_cell_marked (records : list (list str)) : Prop :=
  ∃ h hs rest, records = ((0xFEFF :: h) :: hs) :: rest.

Lemma marked_record_complete self :
  first_field_marked self → state self = START_RECORD →
  ∃ h fs, fields self = (0xFEFF :: h) :: fs.
Proof.
  intros [H | (_ & _ & [H | [H | H]])] Hs; [done|congruence..].
Qed.

Lemma reader_records_marked lines : ∀ self records,
  first_field_marked self →
  state self = IN_QUOTED_FIELD ∨ lines ≠ [] →
  reader_records self lines = Some records →
  first_cell_marked records.
Proof.
  induction lines as [|line lines IH]; intros self records Hm Hq;
    cbn [reader_records].
  - destruct Hq as [Hq|Hq]; [|done]. rewrite Hq.
    rewrite bool_decide_eq_true_2 by done. rewrite orb_true_r.
    intros [= <-]. unfold first_cell_marked. cbn.
    destruct Hm as [(h & fs & ->) | (-> & (h & ->) & _)]; cbn; eauto.
  - destruct (feed self line) as [self'|] eqn:Hf; [|done]. cbn.
    destruct (feed_marked _ _ _ Hm Hf) as [Hm' Hs'].
    case_bool_decide as Hst.
    + destruct (marked_record_complete _ Hm' Hst) as (h & fs & Hfs).
      destruct (reader_records parse_reset lines) as [rest|]; [|done].
      intros [= <-]. rewrite Hfs. unfold first_cell_marked. eauto.
    + destruct Hs' as [Hs'|Hs']; [done|]. apply IH; auto.
Qed.

Lemma readlines_head c t :
  c ≠ 0x0A → ∃ l ls, readlines (c :: t) = (c :: l) :: ls.
Proof.
  intros Hc. cbn [readlines].
  destruct (N.eqb_spec c 0x0A); [done|].
  destruct (readlines t) as [|l ls]; eauto.
Qed.

Lemma csv_reader_marked t records :
  csv_reader (0xFEFF :: t) = Some records → first_cell_marked records.
Proof.
  unfold csv_reader.
  destruct (readlines_head 0xFEFF t) as (l & ls & ->); [done|].
  change (reader_records parse_reset ((0xFEFF :: l) :: ls)) with
    (reader_records {| state := IN_FIELD; fields := []; field := [0xFEFF] |}
       (l :: ls)).
  apply reader_records_marked; [|by right].
  right. cbn. eauto.
Qed.

(** *** Dictionaries *)

Section Dict.
Context {K V : Type} `{EqDecision K}.
Implicit Types (d : pydict K V) (items : list (K * V)).

Lemma filter_dict_set (P : K → Prop) `{∀ k, Decision (P k)} k v d :
filter (fun kv => P kv.1) (dict_set k v d) =
  if decide (P k) then dict_set k v (filter (fun kv => P kv.1) d)
  else filter (fun kv => P kv.1) d.
Proof.
induction d as [|[k' v'] d IH]; cbn [dict_set].
- rewrite filter_cons, filter_nil. cbn [fst].
  by destruct (decide (P k)).
- destruct (decide (k' = k)) as [->|Hne].
  + rewrite !filter_cons. cbn [fst].
    destruct (decide (P k)); [|done].
    cbn [dict_set]. by rewrite decide_True.
  + rewrite !filter_cons, IH. cbn [fst].
    destruct (decide (P k')), (decide (P k)); try done.
    cbn [dict_set]. by rewrite decide_False.
Qed.

Lemma filter_assign (P : K → Prop) `{∀ k, Decision (P k)} items d :
filter (fun kv => P kv.1) (assign items d) =
  assign (filter (fun kv => P kv.1) items) (filter (fun kv => P kv.1) d).
Proof.
revert d. induction items as [|[k v] items IH]; intros d; [done|].
unfold assign in *. cbn [fold_left fst snd].
rewrite IH, filter_dict_set, filter_cons. cbn [fst].
by destruct (decide (P k)).
Qed.

Lemma dict_set_keys k v d kv :
kv ∈ dict_set k v d → kv.1 = k ∨ kv ∈ d.
Proof.
induction d as [|[k' v'] d IH]; cbn [dict_set].
- intros ->%list_elem_of_singleton. by left.
- destruct (decide (k' = k)) as [->|Hne].
  + intros [->|Hin]%elem_of_cons; [by left|]. right. by right.
  + intros [->|Hin]%elem_of_cons; [right; by left|].
    destruct (IH Hin) as [?|?]; [by left|]. right. by right.
Qed.

Lemma assign_keys items d kv :
kv ∈ assign items d → kv.1 ∈ items.*1 ∨ kv ∈ d.
Proof.
revert d. induction items as [|[k v] items IH]; intros d; [by right|].
unfold assign in *. cbn [fold_left fst snd].
intros [Hin|Hin]%IH.
- left. rewrite fmap_cons. by right.
- apply dict_set_keys in Hin as [->|Hin]; [|by right].
  left. rewrite fmap_cons. by left.
Qed.
End Dict.

Lemma clean_snoc d kv :
  clean (d ++ [kv]) = <[clean_key kv.1 := clean_value kv.2]> (clean d).
Proof. unfold clean. by rewrite fold_left_app. Qed.

(** A lookup in the cleaned row only sees the items whose cleaned key is
    the one looked up. *)
Lemma clean_lookup_filter (P : option str → Prop) `{∀ k, Decision (P k)} d k :
  (∀ kv, kv ∈ d → ¬ P kv.1 → clean_key kv.1 ≠ k) →
  clean d !! k = clean (filter (fun kv => P kv.1) d) !! k.
Proof.
  induction d as [|kv d IH] using rev_ind; intros Hd; [done|].
  rewrite filter_app, filter_cons, filter_nil.
  assert (Hd' : ∀ kv, kv ∈ d → ¬ P kv.1 → clean_key kv.1 ≠ k).
  { intros kv' Hin. apply Hd. apply elem_of_app. by left. }
  destruct (decide (P kv.1)) as [Hp|Hp].
  - rewrite !clean_snoc.
    destruct (decide (clean_key kv.1 = k)) as [->|Hne].
    + by rewrite !lookup_insert_eq.
    + rewrite !lookup_insert_ne by done. by apply IH.
  - rewrite app_nil_r, clean_snoc, lookup_insert_ne; [by apply IH|].
    apply Hd; [|done]. apply elem_of_app. right. by left.
Qed.

Lemma clean_lookup_None d k :
  (∀ kv, kv ∈ d → clean_key kv.1 ≠ k) → clean d !! k = None.
Proof.
  induction d as [|kv d IH] using rev_ind; intros Hd; [done|].
  rewrite clean_snoc, lookup_insert_ne.
  - apply IH. intros kv' Hin. apply Hd, elem_of_app. by left.
  - apply Hd, elem_of_app. right. by left.
Qed.

(** The assignments that build the dictionary of a record. *)
Definition row_items (fieldnames rec : list str) : list (option str * value) :=
  zip (Some <$> fieldnames) (VStr <$> rec)
    ++ (if (length fieldnames <? length rec)%nat
        then [(None, VList (drop (length fieldnames) rec))]
        else if (length rec <? length fieldnames)%nat
             then (fun key => (Some key, VNone)) <$> drop (length rec) fieldnames
             else []).

Lemma DictReader_row_items fieldnames rec :
  DictReader_row fieldnames rec = assign (row_items fieldnames rec) [].
Proof.
  unfold DictReader_row, row_items, assign. rewrite fold_left_app.
  destruct (length fieldnames <? length rec)%nat; [done|].
  by destruct (length rec <? length fieldnames)%nat.
Qed.

Lemma row_items_cons h hs v vs :
  row_items (h :: hs) (v :: vs) = (Some h, VStr v) :: row_items hs vs.
Proof. reflexivity. Qed.

(** The first column does not show under a key that its own header cell
    does not clean to. *)
Lemma first_column_hidden h hs v vs k :
  clean_key (Some h) ≠ k →
  clean (DictReader_row (h :: hs) (v :: vs)) !! k
    = clean (DictReader_row hs vs) !! k.
Proof.
  intros Hk. rewrite !DictReader_row_items, row_items_cons.
  rewrite (clean_lookup_filter (fun key => key ≠ Some h)
             (assign (_ :: _) [])).
  2:{ intros kv _ Hkv. apply dec_stable in Hkv. by rewrite Hkv. }
  rewrite (clean_lookup_filter (fun key => key ≠ Some h)
             (assign (row_items hs vs) [])).
  2:{ intros kv _ Hkv. apply dec_stable in Hkv. by rewrite Hkv. }
  pose proof (filter_assign (fun key => key ≠ Some h)
                ((Some h, VStr v) :: row_items hs vs) []) as E1.
  pose proof (filter_assign (fun key => key ≠ Some h) (row_items hs vs) [])
    as E2.
  cbv beta in E1, E2. rewrite E1, E2, filter_cons. cbn [fst].
  by rewrite decide_False by auto.
Qed.

Lemma row_items_keys fieldnames rec key :
  key ∈ (row_items fieldnames rec).*1 →
  key = None ∨ ∃ h, h ∈ fieldnames ∧ key = Some h.
Proof.
  unfold row_items. rewrite fmap_app, elem_of_app. intros [Hin|Hin].
  - right. apply list_elem_of_fmap in Hin as ([k' v'] & -> & Hin).
    apply elem_of_zip_l in Hin.
    apply list_elem_of_fmap in Hin as (h & -> & Hin). eauto.
  - destruct (length fieldnames <? length rec)%nat.
    + left. cbn in Hin. by apply list_elem_of_singleton in Hin.
    + destruct (length rec <? length fieldnames)%nat.
      * right. rewrite <- list_fmap_compose in Hin.
        apply list_elem_of_fmap in Hin as (h & -> & Hin).
        exists h. split; [|done]. by eapply subseteq_drop.
      * by apply elem_of_nil in Hin.
Qed.

Lemma columns_read_unmarked :
  Forall (fun k => head k ≠ Some 0xFEFF ∧ k ≠ []) columns_read.
Proof. apply (bool_decide_eq_true_1 _). vm_compute. reflexivity. Qed.

(** A file with the mark, a header 姓,名 and one row. *)
Definition marked_file : bytes :=
  list_byte_of_string "姓,名" ++ [x0a]%byte
    ++ list_byte_of_string "山田,太郎" ++ [x0a]%byte.

(** The one row of that file: the family name stands under the header
    cell with the mark, and not under 姓. *)
Definition marked_file_row : gmap str value :=
  list_to_map [(0xFEFF :: u "姓", VStr (u "山田")); (u "名", VStr (u "太郎"))].

Example marked_file_loses_first_column :
  read_csv_rows (fun _ => None) (fun _ => None) (BOM_UTF8 ++ marked_file)
    = inr [marked_file_row]
  ∧ marked_file_row !! u "姓" = None
  ∧ marked_file_row !! (0xFEFF :: u "姓") = Some (VStr (u "山田"))
  ∧ marked_file_row !! u "名" = Some (VStr (u "太郎")).
Proof. split_and!; vm_compute; reflexivity. Qed.

(** The cells of a decoded row that hold text, as the transformer reads
    them (a list can only stand under the empty key, which it never looks
    up). *)
Definition text_cells (r : gmap str value) : row :=
  omap (fun v => match v with VStr s => Some s | _ => None end) r.

(** The record of that row has the given name and no family name. *)
Example marked_file_record :
  vcard_lines (text_cells marked_file_row) =
    [u "BEGIN:VCARD"; u "VERSION:3.0"; u "N:;太郎;;;"; u "FN:太郎 ";
     u "END:VCARD"].
Proof. vm_compute. reflexivity. Qed.

(** * Further properties of the code *)

(** ** Trimming *)

Abbreviation blank := (Forall (fun c => Py_UNICODE_ISSPACE c = true)).

(** A string with no white space at either end. *)
Definition trimmed (s : str) : Prop :=
  (∀ c t, s = c :: t → Py_UNICODE_ISSPACE c = false)
  ∧ (∀ c t, s = t ++ [c] → Py_UNICODE_ISSPACE c = false).

Lemma lstrip_spec s :
  ∃ a, s = a ++ lstrip s ∧ blank a
       ∧ ∀ c t, lstrip s = c :: t → Py_UNICODE_ISSPACE c = false.
Proof.
  induction s as [|c s (a & Hs & Ha & Hh)]; simpl.
  - exists []. by split_and!.
  - destruct (Py_UNICODE_ISSPACE c) eqn:Hc.
    + exists (c :: a). split_and!; [by rewrite Hs at 1 | by constructor | done].
    + exists []. split_and!; [done | constructor |].
      by intros c' t [= <- <-].
Qed.

Lemma lstrip_id s :
  (∀ c t, s = c :: t → Py_UNICODE_ISSPACE c = false) → lstrip s = s.
Proof.
  destruct s as [|c s]; [done|]. intros H. simpl. by rewrite (H c s).
Qed.

Lemma strip_spec s :
  ∃ a b, s = a ++ strip s ++ b ∧ blank a ∧ blank b ∧ trimmed (strip s).
Proof.
  destruct (lstrip_spec s) as (a & Hs & Ha & Hhead).
  destruct (lstrip_spec (rev (lstrip s))) as (b & Hr & Hb & Hlast).
  exists a, (rev b). unfold strip, rstrip.
  set (w := lstrip (rev (lstrip s))) in *.
  assert (Hl : lstrip s = rev w ++ rev b).
  { rewrite <- rev_app_distr, <- Hr. by rewrite rev_involutive. }
  split_and!.
  - by rewrite <- Hl.
  - done.
  - by apply Forall_rev.
  - split.
    + intros c t Hw. destruct (rev w) as [|c' t'] eqn:Hrw; [done|].
      injection Hw as <- <-. apply (Hhead c' (t' ++ rev b)).
      by rewrite Hl.
    + intros c t Hw. apply (Hlast c (rev t)).
      apply (f_equal (@rev _)) in Hw.
      by rewrite rev_involutive, rev_app_distr in Hw.
Qed.

Lemma strip_trimmed s : trimmed s → strip s = s.
Proof.
  intros [Hh Hl]. unfold strip, rstrip. rewrite (lstrip_id s Hh).
  rewrite lstrip_id; [apply rev_involutive|].
  intros c t Hr. apply (Hl c (rev t)).
  apply (f_equal (@rev _)) in Hr. by rewrite rev_involutive in Hr.
Qed.

Lemma strip_idemp s : strip (strip s) = strip s.
Proof. destruct (strip_spec s) as (_ & _ & _ & _ & _ & H). by apply strip_trimmed. Qed.

Lemma strip_sublist c s : c ∈ strip s → c ∈ s.
Proof.
  destruct (strip_spec s) as (a & b & Hs & _). intros H.
  rewrite Hs, !elem_of_app. auto.
Qed.

Lemma strip_blank s : blank s → strip s = [].
Proof.
  intros Hs. destruct (strip_spec s) as (a & b & E & _ & _ & Ht & _).
  destruct (strip s) as [|c t]; [done|].
  rewrite E in Hs.
  apply Forall_app in Hs as [_ [Hc _]%Forall_app].
  apply Forall_cons in Hc as [Hc _]. by rewrite (Ht c t) in Hc.
Qed.

(** ** [normalize_phone], again *)

Lemma digits_of_decimal s : Forall (fun c => Py_UNICODE_ISDECIMAL c = true) (digits_of s).
Proof.
  unfold digits_of. apply Forall_forall. intros c Hc.
  by apply list_elem_of_filter in Hc as [Hc _].
Qed.

Lemma digits_of_id s :
  Forall (fun c => Py_UNICODE_ISDECIMAL c = true) s → digits_of s = s.
Proof.
  unfold digits_of. induction 1 as [|c s Hc _ IH]; [done|].
  by rewrite filter_cons, decide_True, IH.
Qed.

Lemma decimal_not_space c :
  Py_UNICODE_ISDECIMAL c = true → Py_UNICODE_ISSPACE c = false.
Proof.
  intros Hd. destruct (Py_UNICODE_ISSPACE c) eqn:Hs; [|done].
  apply isspace_not_decimal in Hs. congruence.
Qed.

(** A normalized number: decimal digits, at least one, after an optional
    plus sign; or nothing at all. *)
Definition normal_number (num : str) : Prop :=
  num = []
  ∨ ∃ sign digits, num = sign ++ digits ∧ (sign = [] ∨ sign = u "+")
      ∧ digits ≠ [] ∧ Forall (fun c => Py_UNICODE_ISDECIMAL c = true) digits.

Lemma normalize_phone_normal num : normal_number (normalize_phone num).
Proof.
  rewrite normalize_phone_spec. pose proof (digits_of_decimal num) as Hd.
  destruct (digits_of num) as [|d ds] eqn:E.
  - left. by rewrite andb_false_r.
  - right. destruct (startswith _ _ && _).
    + exists (u "+"), (d :: ds). split_and!; auto.
    + exists [], (d :: ds). split_and!; auto.
Qed.

Lemma normalize_phone_fixed num : normal_number num → normalize_phone num = num.
Proof.
  intros [-> | (sign & digits & -> & Hsign & Hne & Hd)]; [done|].
  rewrite normalize_phone_spec.
  destruct digits as [|d ds]; [done|].
  apply Forall_cons in Hd as Hd'. destruct Hd' as [Hd1 Hds].
  destruct Hsign as [-> | ->].
  - cbn [app]. rewrite (digits_of_id _ Hd).
    destruct (strip_keeps_head d ds (decimal_not_space d Hd1)) as [s' ->].
    cbn. destruct (N.eqb_spec d 43) as [->|]; [|done].
    by vm_compute in Hd1.
  - change (u "+" ++ d :: ds) with (43 :: d :: ds).
    destruct (strip_keeps_head 43 (d :: ds)) as [s' ->]; [done|].
    unfold digits_of. rewrite filter_cons, decide_False by (by vm_compute).
    fold (digits_of (d :: ds)). rewrite (digits_of_id _ Hd). done.
Qed.

(** X1. [normalize_phone] always returns a normalized number (nothing, or
    an optional plus sign and at least one decimal digit), and it leaves
    every normalized number as it is: normalizing twice is normalizing
    once. *)
Theorem normalize_phone_idempotent (num : str) :
  normal_number (normalize_phone num)
  ∧ normalize_phone (normalize_phone num) = normalize_phone num.
Proof.
  split; [apply normalize_phone_normal|].
  apply normalize_phone_fixed, normalize_phone_normal.
Qed.

(** ** [split_multi] *)

Lemma split_cons_ne sep s : split sep s ≠ [].
Proof.
  induction s as [|c s IH]; simpl; [done|].
  destruct (c =? sep); [done|]. by destruct (split sep s).
Qed.

Lemma split_no_sep sep s : Forall (fun p => sep ∉ p) (split sep s).
Proof.
  induction s as [|c s IH]; simpl.
  - repeat constructor. apply not_elem_of_nil.
  - destruct (N.eqb_spec c sep) as [->|Hne].
    + constructor; [apply not_elem_of_nil | done].
    + pose proof (split_cons_ne sep s) as Hs.
      destruct (split sep s) as [|h t]; [done|].
      apply Forall_cons in IH as [Hh Ht]. constructor; [|done].
      rewrite elem_of_cons. intros [->|Hin]; [done|by apply Hh].
Qed.

Lemma split_without_sep sep s : sep ∉ s → split sep s = [s].
Proof.
  induction s as [|c s IH]; [done|].
  rewrite not_elem_of_cons. intros [Hc Hs]. simpl.
  destruct (N.eqb_spec c sep) as [->|_]; [done|]. by rewrite IH.
Qed.

Lemma split_app_sep sep p s :
  sep ∉ p → split sep (p ++ sep :: s) = p :: split sep s.
Proof.
  induction p as [|c p IH]; simpl.
  - by rewrite N.eqb_refl.
  - rewrite not_elem_of_cons. intros [Hc Hp].
    destruct (N.eqb_spec c sep) as [->|_]; [done|]. by rewrite IH.
Qed.

Lemma split_join sep l :
  l ≠ [] → Forall (fun p => sep ∉ p) l → split sep (join [sep] l) = l.
Proof.
  induction l as [|p l IH]; [done|]. intros _ [Hp Hl]%Forall_cons.
  destruct l as [|q l]; [by apply split_without_sep|].
  change (join [sep] (p :: q :: l)) with (p ++ sep :: join [sep] (q :: l)).
  rewrite split_app_sep by done. by rewrite IH.
Qed.

(** A value of a multi-value cell: not empty, without semicolon, without
    white space at its ends. *)
Definition cell_value (p : str) : Prop :=
  p ≠ [] ∧ (0x3B ∉ p) ∧ trimmed p.

Lemma split_multi_filter value :
  split_multi value = filter (fun p => p ≠ []) (strip <$> split 0x3B value).
Proof.
  unfold split_multi. induction (split 0x3B value) as [|v l IH]; [done|].
  rewrite fmap_cons, !filter_cons, <- IH.
  destruct (strip v) eqn:E; cbn [truthy].
  - rewrite decide_False by done. by rewrite decide_False by auto.
  - rewrite decide_True by done. rewrite decide_True by done.
    simpl. by rewrite E.
Qed.

Lemma split_multi_cell_value value p :
  p ∈ split_multi value → cell_value p.
Proof.
  rewrite split_multi_filter. intros Hp.
  apply list_elem_of_filter in Hp as [Hne Hp].
  apply list_elem_of_fmap in Hp as (v & -> & Hv).
  split_and!; [done| |].
  - intros Hin%strip_sublist.
    by apply (proj1 (Forall_forall _ _) (split_no_sep 0x3B value) v Hv).
  - by destruct (strip_spec v) as (_ & _ & _ & _ & _ & Ht).
Qed.

(** X2. Every value [split_multi] returns is a proper cell value: it is
    not empty, holds no semicolon and has no white space at either end. *)
Theorem split_multi_values (value : str) :
  Forall cell_value (split_multi value).
Proof.
  apply Forall_forall. intros p Hp.
  by apply (split_multi_cell_value value).
Qed.

Lemma split_multi_of_values l :
  Forall cell_value l → split_multi (join (u ";") l) = l.
Proof.
  intros Hl. rewrite split_multi_filter.
  destruct l as [|p l]; [done|].
  change (u ";") with [0x3B]. rewrite split_join; [|done|].
  2:{ eapply Forall_impl; [exact Hl|]. by intros q (_ & Hq & _). }
  induction Hl as [|q l' (Hne & _ & Ht) _ IH]; [done|].
  rewrite fmap_cons, filter_cons, (strip_trimmed _ Ht).
  rewrite decide_True by done. by rewrite IH.
Qed.

(** X3. Joining cell values with semicolons and splitting the cell again
    gives the same values, in the same order; in particular splitting,
    joining and splitting again changes nothing. *)
Theorem split_multi_join_round_trip (l : list str) (value : str) :
  (Forall cell_value l → split_multi (join (u ";") l) = l)
  ∧ split_multi (join (u ";") (split_multi value)) = split_multi value.
Proof.
  split; [apply split_multi_of_values|].
  apply split_multi_of_values, Forall_forall. intros p Hp.
  by apply (split_multi_cell_value value).
Qed.

Lemma blank_no_semicolon s : blank s → 0x3B ∉ s.
Proof.
  intros Hs Hin. by apply (proj1 (Forall_forall _ _) Hs) in Hin.
Qed.

Lemma split_multi_blank s : strip s = [] → split_multi s = [].
Proof.
  intros Hs. rewrite split_multi_filter.
  rewrite split_without_sep by (by apply blank_no_semicolon, strip_nil).
  cbn. rewrite Hs. done.
Qed.

(** ** [esc], again *)

(** The four characters [esc] rewrites. *)
Definition special (c : char) : bool :=
  (c =? 0x5C) || (c =? 0x0A) || (c =? 0x3B) || (c =? 0x2C).

Lemma esc_char_cases c :
  (special c = false ∧ esc_char c = [c])
  ∨ (c = 0x5C ∧ esc_char c = [0x5C; 0x5C])
  ∨ (c = 0x0A ∧ esc_char c = [0x5C; 0x6E])
  ∨ (c = 0x3B ∧ esc_char c = [0x5C; 0x3B])
  ∨ (c = 0x2C ∧ esc_char c = [0x5C; 0x2C]).
Proof.
  unfold esc_char, special.
  destruct (N.eqb_spec c 0x5C) as [->|]; [auto|].
  destruct (N.eqb_spec c 0x0A) as [->|]; [auto 6|].
  destruct (N.eqb_spec c 0x3B) as [->|]; [auto 6|].
  destruct (N.eqb_spec c 0x2C) as [->|]; [auto 6|].
  by left.
Qed.

(** Every character of the escaped text satisfies [Q], when [Q] holds of
    the characters [esc] writes and of the characters it copies. *)
Lemma esc_Forall (Q : char → Prop) s :
  Q 0x5C → Q 0x6E → Q 0x3B → Q 0x2C →
  Forall (fun c => special c = false → Q c) s →
  Forall Q (esc s).
Proof.
  intros Q1 Q2 Q3 Q4 Hs. rewrite esc_flat_map.
  induction Hs as [|c s Hc _ IH]; [constructor|].
  cbn [flat_map]. apply Forall_app. split; [|done].
  destruct (esc_char_cases c) as [[Hsp ->] | [[-> ->] | [[-> ->] | [[-> ->] | [-> ->]]]]];
    repeat constructor; auto.
Qed.

Lemma esc_no_line_feed s : 0x0A ∉ esc s.
Proof.
  assert (H : Forall (fun c => c ≠ 0x0A) (esc s)).
  { apply esc_Forall; try done. apply Forall_forall.
    intros c _ Hsp ->. done. }
  intros Hin. by apply (proj1 (Forall_forall _ _) H) in Hin.
Qed.

Lemma esc_length s :
  (length s ≤ length (esc s) ∧ length (esc s) ≤ 2 * length s)%nat.
Proof.
  rewrite esc_flat_map. induction s as [|c s IH]; [simpl; lia|].
  cbn [flat_map]. rewrite length_app. cbn [length].
  destruct (esc_char_cases c) as [[_ ->] | [[_ ->] | [[_ ->] | [[_ ->] | [_ ->]]]]];
    simpl; lia.
Qed.

Lemma esc_plain s : esc s = s ↔ Forall (fun c => special c = false) s.
Proof.
  split.
  - intros H. pose proof (esc_length s) as Hlen. revert H Hlen.
    rewrite esc_flat_map. induction s as [|c s IH]; [constructor|].
    cbn [flat_map].
    destruct (esc_char_cases c) as [[Hsp ->] | [[-> ->] | [[-> ->] | [[-> ->] | [-> ->]]]]];
      try discriminate.
    2:{ intros [= He] _. exfalso.
        pose proof (esc_length s) as Hl. rewrite esc_flat_map in Hl.
        assert (E : length (0x5C :: flat_map esc_char s) = length s) by by rewrite He.
        simpl in E. lia. }
    intros [= He] _. constructor; [done|]. apply IH; [done|].
    rewrite <- esc_flat_map. apply esc_length.
  - intros H. rewrite esc_flat_map. induction H as [|c s Hc _ IH]; [done|].
    cbn [flat_map]. rewrite IH.
    destruct (esc_char_cases c) as [[_ ->] | [[-> _] | [[-> _] | [[-> _] | [-> _]]]]];
      done.
Qed.

(** X4. The escaped text never holds a line feed; it is at least as long
    as the text and at most twice as long; and it is the text itself
    exactly when the text has no backslash, line feed, semicolon or
    comma. *)
Theorem esc_output_shape (s : str) :
  (0x0A ∉ esc s)
  ∧ (length s ≤ length (esc s) ∧ length (esc s) ≤ 2 * length s)%nat
  ∧ (esc s = s ↔ Forall (fun c => c ∉ [0x5C; 0x0A; 0x3B; 0x2C]) s).
Proof.
  split_and!; [apply esc_no_line_feed | apply esc_length..|].
  rewrite esc_plain. apply Forall_iff. intros c. unfold special.
  rewrite !elem_of_cons, elem_of_nil, !orb_false_iff, !N.eqb_neq. tauto.
Qed.

Lemma unescape_esc s : unescape (esc s) = s.
Proof.
  induction s as [|c s IH]; [done|].
  by rewrite esc_cons, unescape_esc_char, IH.
Qed.

(** X5. [esc] is one-to-one, and it works character by character: the
    escaped concatenation is the concatenation of the escaped parts, also
    across a joining separator. *)
Theorem esc_injective_and_compositional (s t sep : str) (l : list str) :
  (esc s = esc t → s = t)
  ∧ esc (s ++ t) = esc s ++ esc t
  ∧ esc (join sep l) = join (esc sep) (esc <$> l).
Proof.
  split_and!; [|apply esc_app|apply esc_join].
  intros H. apply (f_equal unescape) in H.
  by rewrite !unescape_esc in H.
Qed.

(** ** The lines of a record *)

(** A text without line feed. *)
Definition one_line (l : str) : Prop := Forall (fun c => c ≠ 0x0A) l.

(** The property names a line of the body of a record can begin with. *)
Definition property_names : list str :=
  [u "N:"; u "FN:"; u "NICKNAME:"; u "X-PHONETIC-LAST-NAME:";
   u "X-PHONETIC-FIRST-NAME:"; u "ORG:"; u "X-PHONETIC-ORG:"; u "TITLE:";
   u "TEL;TYPE="; u "EMAIL;TYPE=INTERNET,"; u "ADR;TYPE="; u "NOTE:"; u "item"].

(** A line of the body: a property name and a value without line feed. *)
Definition property_line (l : str) : Prop :=
  ∃ p rest, l = p ++ rest ∧ p ∈ property_names ∧ one_line rest.

Lemma esc_one_line s : one_line (esc s).
Proof.
  apply esc_Forall; try done. apply Forall_forall. by intros c _ Hsp ->.
Qed.

Lemma normal_number_one_line num : normal_number num → one_line num.
Proof.
  intros [-> | (sign & digits & -> & Hsign & _ & Hd)]; [constructor|].
  apply Forall_app_2.
  - destruct Hsign as [-> | ->]; [constructor|]. by repeat constructor.
  - eapply Forall_impl; [exact Hd|]. by intros c Hc ->.
Qed.

Lemma tel_type_cases label num :
  tel_type label num = u "CELL" ∨ tel_type label num = label.
Proof. unfold tel_type. destruct (_ || _); auto. Qed.

Lemma tel_type_one_line label num : one_line label → one_line (tel_type label num).
Proof.
  intros Hl. destruct (tel_type_cases label num) as [-> | ->]; [|done].
  by repeat constructor.
Qed.

Lemma addr_type_cases r :
  addr_type (adr_vars r) = u "HOME" ∨ addr_type (adr_vars r) = u "WORK".
Proof.
  unfold adr_vars. destruct (adr_split _) as [[p c] s]. cbn [addr_type].
  destruct (str_eqb _ _); auto.
Qed.

(** The value part of a line, piece by piece. *)
Ltac one_line_tac :=
  repeat match goal with
  | |- one_line _ => unfold one_line
  | |- Forall _ (_ ++ _) => apply Forall_app_2
  | |- Forall _ (esc _) => apply esc_one_line
  | |- Forall _ (normalize_phone _) =>
    apply normal_number_one_line, normalize_phone_normal
  | |- Forall _ (tel_type _ _) => apply tel_type_one_line
  | |- Forall _ (if ?b then _ else _) => destruct b
  | |- Forall _ (addr_type (adr_vars ?r)) =>
    destruct (addr_type_cases r) as [-> | ->]
  | |- Forall _ (u _) =>
    apply (bool_decide_eq_true_1 _); vm_compute; reflexivity
  | |- Forall _ (str_of_N _) =>
    apply (bool_decide_eq_true_1 _); vm_compute; reflexivity
  | |- Forall _ [_; _; _] =>
    apply (bool_decide_eq_true_1 _); vm_compute; reflexivity
  end.

(** A line given as a property name followed by its value. *)
Ltac property_line_tac :=
  match goal with
  | |- property_line (?p ++ ?rest) =>
    exists p, rest; split_and!; [reflexivity | in_list | one_line_tac]
  end.

Ltac property_lines_tac :=
  repeat match goal with
  | |- Forall _ [] => apply Forall_nil_2
  | |- Forall _ (_ ++ _) => apply Forall_app_2
  | |- Forall _ (_ :: _) => apply Forall_cons_2
  | |- Forall _ (if ?b then _ else _) => destruct b
  | |- property_line _ => property_line_tac
  end.

Lemma name_lines_property r : Forall property_line (name_lines r []).
Proof. unfold name_lines. rewrite !append_if_app. property_lines_tac. Qed.

Lemma org_lines_property r : Forall property_line (org_lines r []).
Proof. unfold org_lines. rewrite !append_if_app. property_lines_tac. Qed.

Lemma tel_lines_property r : Forall property_line (tel_lines r []).
Proof.
  rewrite tel_lines_app. unfold phone_columns.
  rewrite !bind_cons. cbn [mbind list_bind app].
  repeat apply Forall_app_2; try apply Forall_nil_2;
    apply Forall_bind, Forall_forall; intros raw _; unfold compose, tel_entry;
    cbv beta; property_lines_tac.
Qed.

Lemma mail_lines_property r : Forall property_line (mail_lines r []).
Proof.
  unfold mail_lines, mail_columns. cbn [fold_left].
  rewrite !py_or_nil.
  rewrite !(fold_left_ext (mail_step _) (fun L x => L ++ _)
              _ _ (fun b x => append_if_app _ _ b)).
  rewrite !fold_left_app_each.
  repeat apply Forall_app_2; try apply Forall_nil_2;
    apply Forall_bind, Forall_forall; intros mail _; unfold compose;
    cbv beta; property_lines_tac.
Qed.

Lemma adr_lines_property r : Forall property_line (adr_lines r []).
Proof.
  unfold adr_lines. rewrite append_if_app. unfold adr_from_row.
  destruct (negb _); cbn [truthy app]; [constructor|].
  change (truthy (u "ADR;TYPE=" ++ ?x)) with true.
  cbv iota. property_lines_tac.
Qed.

Lemma join_one_line sep l :
  one_line sep → Forall one_line l → one_line (join sep l).
Proof.
  intros Hsep Hl. induction Hl as [|x l Hx Hl IH]; [constructor|].
  destruct l as [|y l]; [done|].
  change (join sep (x :: y :: l)) with (x ++ sep ++ join sep (y :: l)).
  unfold one_line in *. by repeat apply Forall_app_2.
Qed.

Lemma note_lines_property r : Forall property_line (note_lines r []).
Proof.
  rewrite note_lines_spec. property_lines_tac.
  apply join_one_line; [one_line_tac|].
  apply Forall_fmap, Forall_forall. intros n _. apply esc_one_line.
Qed.

Lemma memo_lines_property r : Forall property_line (memo_lines r []).
Proof.
  rewrite memo_lines_each. change (range 1 6) with [1; 2; 3; 4; 5].
  rewrite !bind_cons. cbn [mbind list_bind app]. unfold memo_entry.
  property_lines_tac.
Qed.

Lemma property_line_one_line l : property_line l → one_line l.
Proof.
  intros (p & rest & -> & Hp & Hrest). apply Forall_app_2; [|done].
  assert (H : Forall one_line property_names)
    by (apply (bool_decide_eq_true_1 _); vm_compute; reflexivity).
  by apply (proj1 (Forall_forall _ _) H).
Qed.

Lemma property_line_not_frame l :
  property_line l → l ≠ u "BEGIN:VCARD" ∧ l ≠ u "END:VCARD".
Proof.
  intros (p & rest & -> & Hp & _).
  assert (H : Forall (fun p => startswith (u "BEGIN:VCARD") p = false
                               ∧ startswith (u "END:VCARD") p = false)
                property_names)
    by (apply (bool_decide_eq_true_1 _); vm_compute; reflexivity).
  apply (proj1 (Forall_forall _ _) H) in Hp as [Hb He].
  split; intros E; [rewrite <- E in Hb | rewrite <- E in He];
    by rewrite startswith_prefix in *.
Qed.

(** The lines between the header and the closing line. *)
Definition body_lines (r : row) : list str :=
  name_lines r [] ++ org_lines r [] ++ tel_lines r [] ++ mail_lines r []
    ++ adr_lines r [] ++ note_lines r [] ++ memo_lines r [].

Lemma vcard_lines_body r :
  vcard_lines r =
    u "BEGIN:VCARD" :: u "VERSION:3.0" :: body_lines r ++ [u "END:VCARD"].
Proof.
  rewrite vcard_lines_sections. unfold body_lines.
  cbn [app]. by rewrite <- !app_assoc.
Qed.

Lemma body_lines_property r : Forall property_line (body_lines r).
Proof.
  unfold body_lines.
  repeat apply Forall_app_2;
    auto using name_lines_property, org_lines_property, tel_lines_property,
      mail_lines_property, adr_lines_property, note_lines_property,
      memo_lines_property.
Qed.

(** X6. A record is [BEGIN:VCARD], [VERSION:3.0], a body and [END:VCARD].
    Every line of the body is one of the thirteen property names followed
    by a value without line feed; whatever the cells hold, no line of the
    body is [BEGIN:VCARD] or [END:VCARD]. *)
Theorem record_layout (r : row) :
  ∃ body,
    vcard_lines r =
      u "BEGIN:VCARD" :: u "VERSION:3.0" :: body ++ [u "END:VCARD"]
    ∧ Forall property_line body
    ∧ (u "BEGIN:VCARD" ∉ body) ∧ (u "END:VCARD" ∉ body).
Proof.
  exists (body_lines r). pose proof (body_lines_property r) as Hb.
  split_and!; [apply vcard_lines_body | done | |];
    intros Hin; apply (proj1 (Forall_forall _ _) Hb) in Hin;
    by destruct (property_line_not_frame _ Hin).
Qed.

Lemma vcard_lines_one_line r : Forall one_line (vcard_lines r).
Proof.
  rewrite vcard_lines_body.
  repeat apply Forall_cons_2; [by repeat constructor..|].
  apply Forall_app_2; [|by repeat constructor].
  eapply Forall_impl; [apply body_lines_property|].
  apply property_line_one_line.
Qed.

Lemma one_line_no_line_feed l : one_line l → 0x0A ∉ l.
Proof. intros H Hin. by apply (proj1 (Forall_forall _ _) H) in Hin. Qed.

(** X7. No cell can break a line: no line of a record holds a line feed,
    so splitting the text of the record at its line feeds gives back
    exactly its lines. *)
Theorem record_lines_recoverable (r : row) :
  Forall (fun l => 0x0A ∉ l) (vcard_lines r)
  ∧ split 0x0A (row_to_vcard r) = vcard_lines r.
Proof.
  assert (H : Forall (fun l => 0x0A ∉ l) (vcard_lines r)).
  { eapply Forall_impl; [apply vcard_lines_one_line|].
    apply one_line_no_line_feed. }
  split; [done|]. unfold row_to_vcard. apply split_join; [|done].
  by rewrite vcard_lines_body.
Qed.

(** ** Rows without content *)

Lemma strip_py_or a b : strip a = [] → strip b = [] → strip (py_or a b) = [].
Proof. unfold py_or. by destruct (truthy a). Qed.

Lemma strip_get_or (r : row) k : strip (get_or r k []) = strip (get r k []).
Proof. by rewrite get_or_nil. Qed.

(** A row in which every column the transformer reads is missing, empty or
    blank. *)
Definition blank_row (r : row) : Prop :=
  ∀ k, k ∈ columns_read → strip (get r k []) = [].

(** Every trimmed cell of a blank row, replaced by the empty string. *)
Ltac blank_cells H r :=
  rewrite ?strip_get_or;
  repeat match goal with
  | |- context [strip (get r ?k [])] => rewrite (H k) by in_list
  end.

Lemma blank_row_adr r : blank_row r → adr_from_row r = [].
Proof.
  intros H. unfold adr_from_row, adr_vars.
  rewrite (H (u "宛先")) by in_list.
  change (str_eqb [] (u "自宅")) with false. cbv iota.
  change (str_eqb (u "WORK") (u "HOME")) with false. cbv iota.
  repeat match goal with
  | |- context [strip (py_or ?a ?b)] =>
    rewrite (strip_py_or a b)
      by (repeat first [apply H; in_list | apply strip_py_or])
  end.
  reflexivity.
Qed.

(** X8. A row whose columns are all missing, empty or blank gives the
    record of three lines: [BEGIN:VCARD], [VERSION:3.0], [END:VCARD]. *)
Theorem blank_row_record (r : row) :
  blank_row r →
  vcard_lines r = [u "BEGIN:VCARD"; u "VERSION:3.0"; u "END:VCARD"].
Proof.
  intros H. rewrite vcard_lines_body.
  assert (Hb : body_lines r = []); [|by rewrite Hb].
  unfold body_lines.
  assert (Hname : name_lines r [] = []).
  { unfold name_lines. by blank_cells H r. }
  assert (Horg : org_lines r [] = []).
  { unfold org_lines. by blank_cells H r. }
  assert (Htel : tel_lines r [] = []).
  { rewrite tel_lines_app. unfold phone_columns.
    rewrite !bind_cons. cbn [mbind list_bind app].
    by rewrite !split_multi_blank by (apply H; in_list). }
  assert (Hmail : mail_lines r [] = []).
  { unfold mail_lines, mail_columns. cbn [fold_left]. rewrite !py_or_nil.
    by rewrite !split_multi_blank by (apply H; in_list). }
  assert (Hadr : adr_lines r [] = []).
  { unfold adr_lines. by rewrite blank_row_adr. }
  assert (Hnote : note_lines r [] = []).
  { rewrite note_lines_spec. unfold notes_of. by blank_cells H r. }
  assert (Hmemo : memo_lines r [] = []).
  { rewrite memo_lines_each. change (range 1 6) with [1; 2; 3; 4; 5].
    rewrite !bind_cons. cbn [mbind list_bind app]. unfold memo_entry.
    by blank_cells H r. }
  by rewrite Hname, Horg, Htel, Hmail, Hadr, Hnote, Hmemo.
Qed.

(** A row with blank cells only. *)
Definition blank_cells_row : row :=
  {[ u "姓" := u "  "; u "会社電話" := u " 　"; u "宛先" := [0x0A];
     u "自宅〒" := u " " ]}.

Lemma blank_row_record_witness :
  vcard_lines blank_cells_row =
    [u "BEGIN:VCARD"; u "VERSION:3.0"; u "END:VCARD"].
Proof.
  refine (blank_row_record blank_cells_row _).
  intros k Hk.
  repeat (apply elem_of_cons in Hk as [->|Hk]; [vm_compute; reflexivity|]).
  by apply elem_of_nil in Hk.
Defined.

(** ** The address patterns *)

(** One of the four prefecture suffixes 都, 道, 府, 県. *)
Definition pref_suffix_char (c : char) : bool :=
  existsb (N.eqb c) (u "都道府県").

(** The text before the first prefecture suffix, the suffix, the text
    behind it. *)
Fixpoint break_at_suffix (s : str) : option (str * char * str) :=
  match s with
  | [] => None
  | c :: s' =>
    if pref_suffix_char c then Some ([], c, s')
    else (fun '(pre, d, post) => (c :: pre, d, post)) <$> break_at_suffix s'
  end.

Lemma exec_pref_suffix subject s g k :
  exec subject pref_suffix s g k =
    match s with
    | c :: s' => if pref_suffix_char c then k s' g else None
    | [] => None
    end.
Proof.
  unfold pref_suffix, pref_suffix_char. ulit.
  cbn [one_of word foldr exec existsb]. destruct s as [|c s']; [done|].
  destruct (N.eqb_spec c 37117) as [->|]; [cbn; by destruct (k s' g)|].
  destruct (N.eqb_spec c 36947) as [->|]; [cbn; by destruct (k s' g)|].
  destruct (N.eqb_spec c 24220) as [->|]; [cbn; by destruct (k s' g)|].
  destruct (N.eqb_spec c 30476) as [->|]; [cbn; by destruct (k s' g)|].
  done.
Qed.

Lemma re_search_pref s :
  found (re_search pref_re s) = existsb pref_suffix_char s.
Proof.
  unfold re_search. generalize s at 1. intros subject.
  induction s as [|c s IH].
  - unfold match_at, pref_re. cbn [exec]. by rewrite exec_pref_suffix.
  - unfold match_at, pref_re in *. cbn [exec existsb] in *.
    rewrite exec_pref_suffix.
    destruct (pref_suffix_char c); [done|]. apply IH.
Qed.

(** What follows the lazy run of the address pattern: the suffix, the
    greedy run and the end, with the first group recorded. *)
Definition address_tail (s : str) (t : str) (g : caps) : option (str * caps) :=
  exec s (Cat (Group 2 pref_suffix) (Cat (Group 3 DotStar) Eol)) t
    ((1%nat, take (length s - length t) s) :: g) (fun s' g => Some (s', g)).

Lemma re_match_address s :
  re_match address_re s = exec s DotStarLazy s [] (address_tail s).
Proof.
  unfold re_match, match_at, address_re. cbn [exec].
  by rewrite Nat.eqb_refl.
Qed.

Lemma exec_lazy_unfold subject t g k :
  exec subject DotStarLazy t g k =
    match k t g with
    | Some m => Some m
    | None =>
      match t with
      | d :: t' => if d =? 0x0A then None else exec subject DotStarLazy t' g k
      | [] => None
      end
    end.
Proof. by destruct t. Qed.

Lemma exec_greedy_unfold subject t g k :
  exec subject DotStar t g k =
    match t with
    | d :: t' =>
      if d =? 0x0A then k t g
      else match exec subject DotStar t' g k with
           | Some m => Some m
           | None => k t g
           end
    | [] => k t g
    end.
Proof. by destruct t. Qed.

(** On a text without line feed the greedy run goes to the end. *)
Lemma exec_greedy_end subject t g k m :
  one_line t → k [] g = Some m → exec subject DotStar t g k = Some m.
Proof.
  intros Ht Hk. induction Ht as [|d t Hd _ IH]; [done|].
  rewrite exec_greedy_unfold.
  destruct (N.eqb_spec d 0x0A); [done|]. by rewrite IH.
Qed.

(** A line feed that is not the last character stops the greedy run where
    the end of the text is not in reach. *)
Lemma exec_greedy_stuck subject x y g k :
  y ≠ [] → (∀ c d z g', k (c :: d :: z) g' = None) →
  exec subject DotStar (x ++ 0x0A :: y) g k = None.
Proof.
  intros Hy Hk. destruct y as [|e y]; [done|].
  induction x as [|d x IH]; rewrite exec_greedy_unfold; cbn [app].
  - apply Hk.
  - destruct (d =? 0x0A).
    + destruct x; apply Hk.
    + rewrite IH. destruct x; apply Hk.
Qed.

Lemma address_tail_unfold s t g :
  address_tail s t g =
    match t with
    | c :: t' =>
      if pref_suffix_char c
      then exec s DotStar t' ((2%nat, [c]) :: (1%nat, take (length s - length t) s) :: g)
             (fun s3 g3 =>
                exec s Eol s3 ((3%nat, take (length t' - length s3) t') :: g3)
                  (fun s' g => Some (s', g)))
      else None
    | [] => None
    end.
Proof.
  unfold address_tail. cbn [exec]. rewrite exec_pref_suffix.
  destruct t as [|c t']; [done|].
  destruct (pref_suffix_char c); [|done].
  replace (length (c :: t') - length t')%nat with 1%nat by (simpl; lia).
  reflexivity.
Qed.

Lemma address_tail_one_line s c t g :
  pref_suffix_char c = true → one_line t →
  address_tail s (c :: t) g =
    Some ([], [(3%nat, t); (2%nat, [c]);
               (1%nat, take (length s - length (c :: t)) s)] ++ g).
Proof.
  intros Hc Ht. rewrite address_tail_unfold, Hc.
  apply exec_greedy_end; [done|]. cbn [exec].
  by rewrite Nat.sub_0_r, firstn_all.
Qed.

Lemma address_lazy_one_line s : ∀ t pre,
  s = pre ++ t → one_line t →
  exec s DotStarLazy t [] (address_tail s) =
    (fun '(p, c, post) =>
       ([], [(3%nat, post); (2%nat, [c]); (1%nat, pre ++ p)]))
      <$> break_at_suffix t.
Proof.
  induction t as [|c t IH]; intros pre Hs Ht; rewrite exec_lazy_unfold.
  - by rewrite address_tail_unfold.
  - apply Forall_cons in Ht as [Hc Ht]. cbn [break_at_suffix].
    destruct (pref_suffix_char c) eqn:Hsuf.
    + rewrite address_tail_one_line by done. cbn. rewrite app_nil_r.
      do 5 f_equal. rewrite Hs, length_app. cbn [length].
      replace (length pre + S (length t) - S (length t))%nat
        with (length pre) by lia.
      by rewrite take_app_length.
    + rewrite address_tail_unfold, Hsuf.
      destruct (N.eqb_spec c 0x0A); [done|].
      rewrite (IH (pre ++ [c])); [|by rewrite <- app_assoc|done].
      destruct (break_at_suffix t) as [[[p d] post]|]; [|done].
      cbn. by rewrite <- app_assoc.
Qed.

Lemma address_lazy_stuck s y : y ≠ [] → ∀ x,
  exec s DotStarLazy (x ++ 0x0A :: y) [] (address_tail s) = None.
Proof.
  intros Hy. induction x as [|c x IH]; rewrite exec_lazy_unfold;
    rewrite address_tail_unfold; cbn [app].
  - done.
  - assert (Hk : (if pref_suffix_char c
                  then exec s DotStar (x ++ 0x0A :: y)
                    ((2%nat, [c])
                       :: (1%nat, take (length s - length (c :: x ++ 0x0A :: y)) s) :: [])
                    (fun s3 g3 =>
                       exec s Eol s3
                         ((3%nat, take (length (x ++ 0x0A :: y) - length s3)
                                    (x ++ 0x0A :: y)) :: g3)
                         (fun s' g => Some (s', g)))
                  else None) = None).
    { destruct (pref_suffix_char c); [|done].
      by apply exec_greedy_stuck. }
    rewrite Hk. destruct (c =? 0x0A); [done|]. apply IH.
Qed.

Abbreviation no_suffix := (Forall (fun c => pref_suffix_char c = false)).

Lemma break_at_suffix_None s :
  break_at_suffix s = None ↔ existsb pref_suffix_char s = false.
Proof.
  induction s as [|c s IH]; cbn [break_at_suffix existsb]; [done|].
  destruct (pref_suffix_char c); [done|]. cbn [orb]. rewrite <- IH.
  by destruct (break_at_suffix s) as [[[p d] post]|].
Qed.

Lemma break_at_suffix_Some s pre c post :
  break_at_suffix s = Some (pre, c, post) →
  s = pre ++ c :: post ∧ pref_suffix_char c = true ∧ no_suffix pre.
Proof.
  revert pre. induction s as [|d s IH]; intros pre; cbn [break_at_suffix]; [done|].
  destruct (pref_suffix_char d) eqn:Hd.
  - intros [= <- <- <-]. by split_and!.
  - destruct (break_at_suffix s) as [[[p e] q]|]; [|done].
    intros [= <- <- <-]. destruct (IH p eq_refl) as (-> & He & Hp).
    split_and!; [done..|]. by constructor.
Qed.

Lemma existsb_no_suffix s : existsb pref_suffix_char s = false ↔ no_suffix s.
Proof.
  induction s as [|c s IH]; cbn [existsb]; [by split; [constructor|]|].
  rewrite orb_false_iff, IH, Forall_cons. done.
Qed.

(** [find] and the slices at the first occurrence of a character. *)
Lemma find_first c s :
  contains c s = true →
  ∃ w post, s = w ++ c :: post ∧ (c ∉ w) ∧ find c s = Z.of_nat (length w).
Proof.
  unfold contains. induction s as [|d s IH]; cbn [existsb find]; [done|].
  destruct (N.eqb_spec d c) as [->|Hne].
  - intros _. exists [], s. split_and!; [done|apply not_elem_of_nil|done].
  - rewrite (proj2 (N.eqb_neq c d)) by done. cbn [orb].
    intros (w & post & -> & Hw & ->)%IH.
    exists (d :: w), post. split_and!; [done| |].
    + rewrite not_elem_of_cons. auto.
    + destruct (Z.ltb_spec (Z.of_nat (length w)) 0); [lia|].
      cbn [length]. lia.
Qed.

Lemma contains_false c s : contains c s = false → c ∉ s.
Proof.
  unfold contains. induction s as [|d s IH]; cbn [existsb].
  - intros _. apply not_elem_of_nil.
  - rewrite orb_false_iff, N.eqb_neq, not_elem_of_cons. intros [? ?]. auto.
Qed.

Lemma slices_at_first c w post :
  slice_to (Z.of_nat (length w) + 1) (w ++ c :: post) = w ++ [c]
  ∧ slice_from (Z.of_nat (length w) + 1) (w ++ c :: post) = post.
Proof.
  unfold slice_to, slice_from, slice_index.
  rewrite length_app. cbn [length].
  destruct (Z.ltb_spec (Z.of_nat (length w) + 1) 0); [lia|].
  replace (Z.to_nat _) with (length (w ++ [c])) by (rewrite length_app; simpl; lia).
  replace (w ++ c :: post) with ((w ++ [c]) ++ post) by by rewrite <- app_assoc.
  by rewrite take_app_length, drop_app_length.
Qed.

Lemma adr_split_no_suffix a1 : no_suffix a1 → adr_split a1 = ([], [], a1).
Proof.
  intros H%existsb_no_suffix. unfold adr_split. by rewrite re_search_pref, H.
Qed.

Lemma adr_split_break a1 pre c post :
  one_line a1 → break_at_suffix a1 = Some (pre, c, post) →
  adr_split a1 =
    if contains 0x533A post
    then (pre ++ [c], slice_to (find 0x533A post + 1) post,
          slice_from (find 0x533A post + 1) post)
    else (pre ++ [c], [], post).
Proof.
  intros Hl Hb. unfold adr_split. rewrite re_search_pref.
  destruct (existsb pref_suffix_char a1) eqn:He.
  2:{ apply break_at_suffix_None in He. congruence. }
  rewrite re_match_address, (address_lazy_one_line a1 a1 []) by done.
  rewrite Hb. reflexivity.
Qed.

(** X9. An address line without line feed is cut, never shortened: the
    prefecture ends with the first of the characters 都, 道, 府, 県 (it is
    empty when there is none, and then the whole line is the street), the
    city ends with the first 区 behind the prefecture (it is empty when
    there is none), and prefecture, city and street put together are the
    line. *)
Theorem adr_split_one_line (a1 : str) :
  one_line a1 →
  ∃ p c s,
    adr_split a1 = (p, c, s) ∧ p ++ c ++ s = a1
    ∧ (p = [] ∧ c = [] ∧ no_suffix a1
       ∨ ∃ pre d, p = pre ++ [d] ∧ pref_suffix_char d = true ∧ no_suffix pre)
    ∧ (c = [] ∧ (p = [] ∨ 0x533A ∉ s)
       ∨ ∃ w, c = w ++ [0x533A] ∧ (0x533A ∉ w)).
Proof.
  intros Hl. destruct (break_at_suffix a1) as [[[pre d] post]|] eqn:Hb.
  - rewrite (adr_split_break _ _ _ _ Hl Hb).
    destruct (break_at_suffix_Some _ _ _ _ Hb) as (-> & Hd & Hpre).
    destruct (contains 0x533A post) eqn:Hc.
    + destruct (find_first _ _ Hc) as (w & q & -> & Hw & ->).
      destruct (slices_at_first 0x533A w q) as [-> ->].
      exists (pre ++ [d]), (w ++ [0x533A]), q.
      split_and!; [done|by rewrite <- !app_assoc|right; eauto|right; eauto].
    + exists (pre ++ [d]), [], post.
      split_and!; [done|by rewrite <- app_assoc|right; eauto|].
      left. split; [done|]. right. by apply contains_false.
  - apply break_at_suffix_None, existsb_no_suffix in Hb.
    rewrite (adr_split_no_suffix _ Hb). exists [], [], a1.
    split_and!; [done|done|by left|by left; auto].
Qed.

Lemma adr_split_one_line_witness :
  ∃ p c s, adr_split (u "京都府京都市中京区1") = (p, c, s)
           ∧ p ++ c ++ s = u "京都府京都市中京区1".
Proof.
  destruct (adr_split_one_line (u "京都府京都市中京区1")) as (p & c & s & H & E & _).
  - apply (bool_decide_eq_true_1 _). vm_compute. reflexivity.
  - by exists p, c, s.
Defined.

(** X10. An address line loses its text altogether when it holds one of
    the characters 都, 道, 府, 県 and a line feed that is not its last
    character: prefecture, city and street are all empty.  Without any of
    the four characters the whole line is the street, line feed or not. *)
Theorem adr_split_line_feed (x y : str) :
  y ≠ [] → existsb pref_suffix_char (x ++ 0x0A :: y) = true →
  adr_split (x ++ 0x0A :: y) = ([], [], [])
  ∧ ∀ a1, no_suffix a1 → adr_split a1 = ([], [], a1).
Proof.
  intros Hy Hs. split; [|apply adr_split_no_suffix].
  unfold adr_split. rewrite re_search_pref, Hs, re_match_address.
  by rewrite address_lazy_stuck.
Qed.

Lemma adr_split_line_feed_witness :
  adr_split (u "東京都千代田区" ++ 0x0A :: u "丸の内1-1") = ([], [], []).
Proof.
  refine (proj1 (adr_split_line_feed (u "東京都千代田区") (u "丸の内1-1") _ _)).
  - done.
  - vm_compute. reflexivity.
Defined.

(** ** The rows of the decoder *)

Section DictItems.
Context {K V : Type} `{EqDecision K}.
Implicit Types (d : pydict K V) (items : list (K * V)).

Lemma dict_set_elem k v d kv :
kv ∈ dict_set k v d → kv = (k, v) ∨ kv ∈ d.
Proof.
induction d as [|[k' v'] d IH]; cbn [dict_set].
- intros ->%list_elem_of_singleton. by left.
- destruct (decide (k' = k)) as [->|Hne].
  + intros [->|Hin]%elem_of_cons; [by left|]. right. by right.
  + intros [->|Hin]%elem_of_cons; [right; by left|].
    destruct (IH Hin) as [?|?]; [by left|]. right. by right.
Qed.

Lemma assign_elem items d kv :
kv ∈ assign items d → kv ∈ items ∨ kv ∈ d.
Proof.
revert d. induction items as [|[k v] items IH]; intros d; [by right|].
unfold assign in *. cbn [fold_left fst snd].
intros [Hin|Hin]%IH.
- left. by right.
- apply dict_set_elem in Hin as [->|Hin]; [left; by left|by right].
Qed.

Lemma dict_set_has_key k v d k' :
k' ∈ (dict_set k v d).*1 ↔ k' = k ∨ k' ∈ d.*1.
Proof.
induction d as [|[k0 v0] d IH]; cbn [dict_set].
- rewrite fmap_cons, fmap_nil, list_elem_of_singleton. cbn [fst].
  split; [auto|]. intros [?|?%elem_of_nil]; done.
- destruct (decide (k0 = k)) as [->|Hne].
  + rewrite !fmap_cons, !elem_of_cons. cbn [fst]. tauto.
  + rewrite !fmap_cons, !elem_of_cons, IH. cbn [fst]. tauto.
Qed.

Lemma assign_has_key items d k' :
k' ∈ (assign items d).*1 ↔ k' ∈ items.*1 ∨ k' ∈ d.*1.
Proof.
revert d. induction items as [|[k v] items IH]; intros d.
- cbn. rewrite elem_of_nil. tauto.
- unfold assign in *. cbn [fold_left fst snd].
  rewrite IH, dict_set_has_key, fmap_cons, elem_of_cons. cbn [fst].
  tauto.
Qed.

Lemma dict_set_fresh k v d : k ∉ d.*1 → dict_set k v d = d ++ [(k, v)].
Proof.
induction d as [|[k0 v0] d IH]; cbn [dict_set]; [done|].
rewrite fmap_cons, not_elem_of_cons. cbn [fst]. intros [Hne Hd].
rewrite decide_False by done. by rewrite IH.
Qed.
End DictItems.

Lemma clean_lookup_Some d k v :
  clean d !! k = Some v →
  ∃ kv, kv ∈ d ∧ clean_key kv.1 = k ∧ v = clean_value kv.2.
Proof.
  induction d as [|kv d IH] using rev_ind; [done|].
  rewrite clean_snoc. destruct (decide (clean_key kv.1 = k)) as [<-|Hne].
  - rewrite lookup_insert_eq. intros [= <-]. exists kv.
    split_and!; [|done..]. apply elem_of_app. right. by left.
  - rewrite lookup_insert_ne by done.
    intros (kv' & Hin & ? & ?)%IH. exists kv'.
    split_and!; [|done..]. apply elem_of_app. by left.
Qed.

Lemma clean_lookup_is_Some d k :
  is_Some (clean d !! k) ↔ ∃ key, key ∈ d.*1 ∧ clean_key key = k.
Proof.
  split.
  - intros [v (kv & Hin & Hk & _)%clean_lookup_Some]. exists kv.1.
    split; [|done]. by apply list_elem_of_fmap_2.
  - induction d as [|kv d IH] using rev_ind.
    + intros (key & []%elem_of_nil & _).
    + rewrite clean_snoc, fmap_app. intros (key & Hin & Hk).
      destruct (decide (clean_key kv.1 = k)) as [<-|Hne].
      * rewrite lookup_insert_eq. by eexists.
      * rewrite lookup_insert_ne by done. apply IH.
        apply elem_of_app in Hin as [Hin|Hin]; [by exists key|].
        cbn in Hin. apply list_elem_of_singleton in Hin. congruence.
Qed.

(** An item whose cleaned key is another one does not show. *)
Lemma hidden_item key v items k :
  clean_key key ≠ k →
  clean (assign ((key, v) :: items) []) !! k = clean (assign items []) !! k.
Proof.
  intros Hk.
  rewrite (clean_lookup_filter (fun key' => key' ≠ key) (assign (_ :: _) [])).
  2:{ intros kv _ Hkv. apply dec_stable in Hkv. by rewrite Hkv. }
  rewrite (clean_lookup_filter (fun key' => key' ≠ key) (assign items [])).
  2:{ intros kv _ Hkv. apply dec_stable in Hkv. by rewrite Hkv. }
  pose proof (filter_assign (fun key' => key' ≠ key) ((key, v) :: items) [])
    as E1.
  pose proof (filter_assign (fun key' => key' ≠ key) items []) as E2.
  cbv beta in E1, E2. rewrite E1, E2, filter_cons. cbn [fst].
  by rewrite decide_False by auto.
Qed.

(** An item shows under its cleaned key when no later key cleans to it. *)
Lemma shown_item key v items :
  (∀ key', key' ∈ items.*1 → clean_key key' ≠ clean_key key) →
  clean (assign ((key, v) :: items) []) !! clean_key key
    = Some (clean_value v).
Proof.
  intros Hitems.
  rewrite (clean_lookup_filter (fun key' => key' = key) (assign (_ :: _) [])).
  2:{ intros kv Hin Hkv.
      apply assign_keys in Hin as [Hin|[]%elem_of_nil].
      rewrite fmap_cons in Hin. cbn [fst] in Hin.
      apply elem_of_cons in Hin as [?|Hin]; [done|]. by apply Hitems. }
  pose proof (filter_assign (fun key' => key' = key) ((key, v) :: items) [])
    as E. cbv beta in E. rewrite E, filter_cons. cbn [fst].
  rewrite decide_True by done.
  assert (filter (fun kv : option str * value => kv.1 = key) items = []) as ->.
  { apply elem_of_nil_inv. intros kv [Hkv Hin]%list_elem_of_filter.
    apply (Hitems kv.1); [by apply list_elem_of_fmap_2|by rewrite Hkv]. }
  unfold assign, clean. cbn. by rewrite lookup_insert_eq.
Qed.

Lemma row_items_nil_cons h hs :
  row_items (h :: hs) [] = (Some h, VNone) :: row_items hs [].
Proof. unfold row_items. cbn. by destruct hs. Qed.

Lemma row_items_step h hs rec :
  row_items (h :: hs) rec
    = (Some h, from_option VStr VNone (head rec)) :: row_items hs (tail rec).
Proof.
  destruct rec as [|v vs]; [apply row_items_nil_cons|apply row_items_cons].
Qed.

Lemma row_items_elem fieldnames rec kv :
  kv ∈ row_items fieldnames rec →
  (∃ h s, kv = (Some h, VStr s) ∧ h ∈ fieldnames)
  ∨ (∃ h, kv = (Some h, VNone) ∧ h ∈ fieldnames)
  ∨ (kv = (None, VList (drop (length fieldnames) rec))
     ∧ length fieldnames < length rec)%nat.
Proof.
  unfold row_items. rewrite elem_of_app. intros [Hin|Hin].
  - left. destruct kv as [key v].
    pose proof (elem_of_zip_l _ _ _ _ Hin) as Hl.
    pose proof (elem_of_zip_r _ _ _ _ Hin) as Hr.
    apply list_elem_of_fmap in Hl as (h & -> & Hh).
    apply list_elem_of_fmap in Hr as (s & -> & Hs). eauto.
  - destruct (Nat.ltb_spec (length fieldnames) (length rec)).
    + right. right. by apply list_elem_of_singleton in Hin.
    + destruct (length rec <? length fieldnames)%nat.
      * right. left. apply list_elem_of_fmap in Hin as (h & -> & Hin).
        exists h. split; [done|]. by eapply subseteq_drop.
      * by apply elem_of_nil in Hin.
Qed.

Lemma row_items_has_key fieldnames rec h :
  h ∈ fieldnames → Some h ∈ (row_items fieldnames rec).*1.
Proof.
  revert rec. induction fieldnames as [|h0 hs IH]; intros rec.
  - intros []%elem_of_nil.
  - rewrite row_items_step, fmap_cons. cbn [fst].
    intros [->|Hin]%elem_of_cons; [by left|]. right. by apply IH.
Qed.

Lemma row_items_surplus fieldnames rec :
  (length fieldnames < length rec)%nat →
  DictReader_row fieldnames rec
    = assign (zip (Some <$> fieldnames) (VStr <$> rec)) []
        ++ [(None, VList (drop (length fieldnames) rec))].
Proof.
  intros Hl. unfold DictReader_row.
  rewrite (proj2 (Nat.ltb_lt _ _) Hl). apply dict_set_fresh.
  intros [Hin|[]%elem_of_nil]%assign_has_key.
  apply list_elem_of_fmap in Hin as ([key v] & E & Hin). cbn in E. subst key.
  apply elem_of_zip_l, list_elem_of_fmap in Hin as (h & ? & _). done.
Qed.

Lemma clean_key_None : clean_key None = [].
Proof. reflexivity. Qed.

(** X11. The dictionary that the decoder makes of one record: its keys are
    the trimmed header cells, and the empty key when the record has more
    cells than the header; no value is [None]; a list stands under the
    empty key only, and it does, holding the surplus cells, whenever there
    are any; so under any other key the row holds text or nothing. *)
Theorem decoded_row_shape (fieldnames rec : list str) (k : str) :
  let r := clean (DictReader_row fieldnames rec) in
  (is_Some (r !! k) ↔
     (∃ h, h ∈ fieldnames ∧ strip h = k)
     ∨ (k = [] ∧ length fieldnames < length rec)%nat)
  ∧ r !! k ≠ Some VNone
  ∧ (∀ l, r !! k = Some (VList l) →
       k = [] ∧ l = drop (length fieldnames) rec
       ∧ (length fieldnames < length rec)%nat)
  ∧ ((length fieldnames < length rec)%nat →
       r !! [] = Some (VList (drop (length fieldnames) rec)))
  ∧ (k ≠ [] → r !! k = VStr <$> text_cells r !! k).
Proof.
  cbv zeta.
  assert (Hval : ∀ v, clean (DictReader_row fieldnames rec) !! k = Some v →
            (∃ s, v = VStr s)
            ∨ (v = VList (drop (length fieldnames) rec) ∧ k = []
               ∧ (length fieldnames < length rec)%nat)).
  { intros v (kv & Hin & Hk & ->)%clean_lookup_Some.
    rewrite DictReader_row_items in Hin.
    apply assign_elem in Hin as [Hin|[]%elem_of_nil].
    apply row_items_elem in Hin
      as [(h & s & -> & _) | [(h & -> & _) | [-> Hl]]]; cbn; eauto. }
  split_and!.
  - rewrite clean_lookup_is_Some, DictReader_row_items. split.
    + intros (key & Hin & Hk).
      apply assign_has_key in Hin as [Hin|[]%elem_of_nil].
      apply list_elem_of_fmap in Hin as (kv & -> & Hin).
      apply row_items_elem in Hin
        as [(h & s & -> & Hh) | [(h & -> & Hh) | [-> Hl]]]; cbn [fst] in Hk.
      * left. exists h. split; [done|]. revert Hk. unfold clean_key, py_or.
        by destruct h.
      * left. exists h. split; [done|]. revert Hk. unfold clean_key, py_or.
        by destruct h.
      * right. by rewrite clean_key_None in Hk.
    + intros [(h & Hh & Hk) | [-> Hl]].
      * exists (Some h). split.
        -- apply assign_has_key. left. by apply row_items_has_key.
        -- rewrite <- Hk. unfold clean_key, py_or. by destruct h.
      * exists None. split; [|done]. apply assign_has_key. left.
        unfold row_items. rewrite (proj2 (Nat.ltb_lt _ _) Hl), fmap_app.
        apply elem_of_app. right. by left.
  - intros [[s ?] | [? _]]%Hval; done.
  - intros l [[s ?] | (E & ? & ?)]%Hval; [done|]. by injection E as <-.
  - intros Hl. rewrite row_items_surplus, clean_snoc by done.
    cbn [fst snd]. by rewrite clean_key_None, lookup_insert_eq.
  - intros Hk. unfold text_cells. rewrite lookup_omap.
    destruct (clean (DictReader_row fieldnames rec) !! k) as [v|] eqn:E;
      [|done].
    destruct (Hval v eq_refl) as [[s ->] | (_ & ? & _)]; done.
Qed.

(** X12. A header cell whose trimmed text no other header cell trims to
    names its own column: the row holds under it the cell of the record at
    the same position, and the empty text when the record is too short.
    (For the header cells that trim to nothing this needs a record without
    surplus cells.) *)
Theorem decoded_row_cell (fieldnames rec : list str) (i : nat) (h : str) :
  fieldnames !! i = Some h →
  (∀ j h', fieldnames !! j = Some h' → j ≠ i → strip h' ≠ strip h) →
  strip h ≠ [] ∨ (length rec ≤ length fieldnames)%nat →
  clean (DictReader_row fieldnames rec) !! strip h
    = Some (VStr (default [] (rec !! i))).
Proof.
  assert (Hck : ∀ x, clean_key (Some x) = strip x).
  { intros x. unfold clean_key, py_or. by destruct x. }
  revert rec i. induction fieldnames as [|h0 hs IH]; intros rec i; [done|].
  rewrite DictReader_row_items, row_items_step.
  destruct i as [|i]; cbn [lookup list_lookup].
  - intros [= ->] Huniq Hl. rewrite <- Hck. rewrite shown_item.
    + by destruct rec.
    + intros key Hin. rewrite Hck.
      apply list_elem_of_fmap in Hin as (kv & -> & Hin).
      apply row_items_elem in Hin
        as [(h' & s & -> & Hh) | [(h' & -> & Hh) | [-> Hlt]]]; cbn [fst].
      * apply list_elem_of_lookup in Hh as [j Hj]. rewrite Hck.
        by apply (Huniq (S j)).
      * apply list_elem_of_lookup in Hh as [j Hj]. rewrite Hck.
        by apply (Huniq (S j)).
      * rewrite clean_key_None. destruct Hl as [Hl|Hl]; [done|].
        destruct rec; cbn [length tail] in *; lia.
  - intros Hi Huniq Hl. rewrite hidden_item.
    + rewrite <- DictReader_row_items, IH with (i := i); [|done| |].
      * by destruct rec.
      * intros j h' Hj Hne. apply (Huniq (S j)); [done|lia].
      * destruct Hl as [Hl|Hl]; [by left|right].
        destruct rec; cbn [length tail] in *; lia.
    + rewrite Hck. apply (Huniq 0%nat); [done|lia].
Qed.

Lemma decoded_row_cell_witness :
  clean (DictReader_row [u " 姓 "; u "名"; u "会社名"] [u "山田"; u "太郎"])
    !! strip (u "会社名") = Some (VStr []).
Proof.
  refine (decoded_row_cell [u " 姓 "; u "名"; u "会社名"] [u "山田"; u "太郎"]
            2 (u "会社名") _ _ _).
  - reflexivity.
  - intros [|[|[|j]]] h' Hj Hne; [| |done|done];
      injection Hj as <-; by vm_compute.
  - left. by vm_compute.
Defined.

(** ** The [/convert] route *)

(** *** The [utf-8] encoder (strict error handling)

    One to four bytes for a code point, in the arithmetic of the decoder
    above; a surrogate raises [UnicodeEncodeError], here [None] (and so
    does a number beyond U+10FFFF, which is no code point). *)
Definition utf_8_encode_char (c : char) : option (list N) :=
  if c <? 0x80 then Some [c]
  else if c <? 0x800 then Some [0xC0 + c / 64; 0x80 + c mod 64]
  else if c <? 0x10000 then
    if (0xD800 <=? c) && (c <=? 0xDFFF) then None
    else Some [0xE0 + c / 4096; 0x80 + (c / 64) mod 64; 0x80 + c mod 64]
  else if c <? 0x110000 then
    Some [0xF0 + c / 262144; 0x80 + (c / 4096) mod 64;
          0x80 + (c / 64) mod 64; 0x80 + c mod 64]
  else None.

Fixpoint utf_8_encode (s : str) : option (list N) :=
  match s with
  | [] => Some []
  | c :: s' =>
    utf_8_encode_char c ≫= fun bs => app bs <$> utf_8_encode s'
  end.

(** [s.encode("utf-8")] *)
Definition encode_utf_8 (s : str) : option bytes :=
  utf_8_encode s ≫= mapM Byte.of_N.

(** What the route answers: [abort(status)], the file sent, or the
    exception that the encoder raised. *)
Inductive response : Type :=
| abort (status : N)
| send_file (payload : bytes)
| UnicodeEncodeError.

Section Convert.
Variables decode_cp932 decode_shift_jis : bytes → option str.

(** [convert], from the uploaded files of the request (field name to
    content).  A decoded row goes to [row_to_vcard] as it is; the
    transformer sees its text cells only. *)
Definition convert (files : gmap str bytes) : response :=
  match files !! u "file" with
  | None => abort 400
  | Some data =>
    match read_csv_rows decode_cp932 decode_shift_jis data with
    | inl e => abort 400
    | inr rows =>
      let vcards := (fun r => row_to_vcard (text_cells r)) <$> rows in
      match encode_utf_8 (join [0x0A] vcards) with
      | Some payload => send_file payload
      | None => UnicodeEncodeError
      end
    end
  end.
End Convert.

Ltac bounds :=
  repeat match goal with
  | |- context [(?a <? ?b)] =>
    destruct (N.ltb_spec a b); try lia
  | |- context [(?a <=? ?b)] =>
    destruct (N.leb_spec a b); try lia
  | |- context [(?a =? ?b)] =>
    destruct (N.eqb_spec a b); try lia
  end.

Lemma utf_8_decode_encode_char c bs r :
  utf_8_encode_char c = Some bs →
  utf_8_decode (bs ++ r) = cons c <$> utf_8_decode r.
Proof.
  unfold utf_8_encode_char.
  pose proof (N.div_mod' c 64) as E1.
  pose proof (N.mod_lt c 64 ltac:(done)) as B1.
  pose proof (N.div_mod' (c / 64) 64) as E2.
  pose proof (N.mod_lt (c / 64) 64 ltac:(done)) as B2.
  pose proof (N.div_mod' (c / 64 / 64) 64) as E3.
  pose proof (N.mod_lt (c / 64 / 64) 64 ltac:(done)) as B3.
  replace (c / 4096) with (c / 64 / 64) by (by rewrite N.Div0.div_div).
  replace (c / 262144) with (c / 64 / 64 / 64)
    by (by rewrite !N.Div0.div_div).
  generalize dependent (c mod 64). intros m1 E1 B1.
  generalize dependent ((c / 64) mod 64). intros m2 E2 B2.
  generalize dependent ((c / 64 / 64) mod 64). intros m3 E3 B3.
  generalize dependent (c / 64 / 64 / 64). intros q3 E3.
  generalize dependent (c / 64 / 64). intros q2 E2 E3.
  generalize dependent (c / 64). intros q1 E1 E2.
  destruct (N.ltb_spec c 0x80).
  { intros [= <-]. cbn [app utf_8_decode].
    by rewrite (proj2 (N.ltb_lt _ _)) by done. }
  destruct (N.ltb_spec c 0x800).
  { intros [= <-]. cbn [app utf_8_decode]. unfold within, cont.
    bounds; cbn [andb]; do 2 f_equal; lia. }
  destruct (N.ltb_spec c 0x10000).
  { destruct (N.leb_spec 0xD800 c), (N.leb_spec c 0xDFFF); cbn [andb];
      try discriminate; intros [= <-]; cbn [app utf_8_decode];
      unfold within, cont; bounds; cbn [andb]; do 2 f_equal; lia. }
  destruct (N.ltb_spec c 0x110000); [|discriminate].
  intros [= <-]. cbn [app utf_8_decode]. unfold within, cont.
  bounds; cbn [andb]; do 2 f_equal; lia.
Qed.

Lemma utf_8_decode_encode s : ∀ bs,
  utf_8_encode s = Some bs → utf_8_decode bs = Some s.
Proof.
  induction s as [|c s IH]; intros bs; cbn [utf_8_encode].
  - by intros [= <-].
  - destruct (utf_8_encode_char c) as [b|] eqn:Hc; [|done]. cbn.
    destruct (utf_8_encode s) as [bs'|]; [|done]. intros [= <-].
    by rewrite (utf_8_decode_encode_char _ _ _ Hc), (IH bs').
Qed.

Lemma decode_encode_utf_8 s b :
  encode_utf_8 s = Some b → decode_utf_8 b = Some s.
Proof.
  unfold encode_utf_8, decode_utf_8.
  destruct (utf_8_encode s) as [bs|] eqn:Hs; [|done]. cbn.
  intros Hb%mapM_Some_1.
  assert (map Byte.to_N b = bs) as ->; [|by apply utf_8_decode_encode].
  clear Hs. induction Hb as [|n y bs b Hy _ IH]; [done|].
  cbn [map]. by rewrite (Byte.to_of_N _ Hy), IH.
Qed.

Lemma join_app_ne sep l1 l2 :
  l1 ≠ [] → l2 ≠ [] →
  join sep (l1 ++ l2) = join sep l1 ++ sep ++ join sep l2.
Proof.
  induction l1 as [|x l1 IH]; [done|]. intros _ H2.
  destruct l1 as [|y l1].
  - destruct l2; [done|]. reflexivity.
  - change (join sep ((x :: y :: l1) ++ l2))
      with (x ++ sep ++ join sep ((y :: l1) ++ l2)).
    rewrite IH by done.
    change (join sep (x :: y :: l1)) with (x ++ sep ++ join sep (y :: l1)).
    by rewrite <- !app_assoc.
Qed.

Lemma join_join sep ls :
  Forall (fun l => l ≠ []) ls →
  join sep (join sep <$> ls) = join sep (concat ls).
Proof.
  induction 1 as [|l ls Hl Hls IH]; [done|].
  destruct ls as [|l' ls'].
  - cbn. by rewrite app_nil_r.
  - change (join sep (join sep <$> l :: l' :: ls'))
      with (join sep l ++ sep ++ join sep (join sep <$> l' :: ls')).
    rewrite IH. change (concat (l :: l' :: ls')) with (l ++ concat (l' :: ls')).
    rewrite join_app_ne; [done..|].
    apply Forall_cons in Hls as [Hl' _]. cbn [concat]. by destruct l'.
Qed.

(** The lines that open and close a record stand once in it. *)
Lemma frame_count r :
  length (filter (fun l => l = u "BEGIN:VCARD") (vcard_lines r)) = 1%nat
  ∧ length (filter (fun l => l = u "END:VCARD") (vcard_lines r)) = 1%nat.
Proof.
  rewrite vcard_lines_body.
  assert (Hbody : ∀ x, x = u "BEGIN:VCARD" ∨ x = u "END:VCARD" →
            filter (fun l => l = x) (body_lines r) = []).
  { intros x Hx. apply elem_of_nil_inv.
    intros l [-> Hin]%list_elem_of_filter.
    apply (proj1 (Forall_forall _ _) (body_lines_property r)) in Hin.
    destruct (property_line_not_frame _ Hin). by destruct Hx. }
  change (u "BEGIN:VCARD" :: u "VERSION:3.0" :: body_lines r ++ [u "END:VCARD"])
    with ([u "BEGIN:VCARD"; u "VERSION:3.0"] ++ body_lines r ++ [u "END:VCARD"]).
  rewrite !filter_app, !Hbody by auto. rewrite !app_nil_l, !length_app.
  split; vm_compute; reflexivity.
Qed.

Lemma filter_concat_count (P : str → Prop) `{∀ l, Decision (P l)}
    (ls : list (list str)) :
  Forall (fun l => length (filter P l) = 1%nat) ls →
  length (filter P (concat ls)) = length ls.
Proof.
  induction 1 as [|l ls Hl _ IH]; [done|].
  cbn [concat length]. by rewrite filter_app, length_app, Hl, IH.
Qed.

Lemma payload_lines (rs : list row) :
  rs ≠ [] →
  split 0x0A (join [0x0A] (row_to_vcard <$> rs)) = concat (vcard_lines <$> rs).
Proof.
  intros Hrs. unfold row_to_vcard.
  rewrite (list_fmap_compose vcard_lines (join [0x0A])), join_join.
  - apply split_join.
    + destruct rs as [|r rs]; [done|]. cbn [fmap list_fmap concat].
      by rewrite vcard_lines_body.
    + apply Forall_concat, Forall_fmap, Forall_true. intros r.
      eapply Forall_impl; [apply vcard_lines_one_line|].
      apply one_line_no_line_feed.
  - apply Forall_fmap, Forall_true. intros r. cbn.
    by rewrite vcard_lines_body.
Qed.

(** X13. When the route sends a file, the request had a file that
    [read_csv_rows] decoded, and the payload is UTF-8 for a text whose
    lines are the lines of the records of the rows, in order; the lines
    [BEGIN:VCARD] and [END:VCARD] stand in it once for every row, whatever
    the cells hold; no rows give the empty payload. *)
Theorem convert_payload
    (decode_cp932 decode_shift_jis : bytes → option str)
    (files : gmap str bytes) (payload : bytes) :
  convert decode_cp932 decode_shift_jis files = send_file payload →
  ∃ data rows text,
    files !! u "file" = Some data
    ∧ read_csv_rows decode_cp932 decode_shift_jis data = inr rows
    ∧ decode_utf_8 payload = Some text
    ∧ (rows = [] → payload = [])
    ∧ (rows ≠ [] →
         split 0x0A text
           = concat ((fun r => vcard_lines (text_cells r)) <$> rows))
    ∧ length (filter (fun l => l = u "BEGIN:VCARD") (split 0x0A text))
        = length rows
    ∧ length (filter (fun l => l = u "END:VCARD") (split 0x0A text))
        = length rows.
Proof.
  unfold convert.
  destruct (files !! u "file") as [data|]; [|done].
  destruct (read_csv_rows _ _ data) as [e|rows] eqn:Hr; [done|]. cbv zeta.
  destruct (encode_utf_8 _) as [b|] eqn:Hb; [|done]. intros [= <-].
  exists data, rows, (join [0x0A] ((fun r => row_to_vcard (text_cells r)) <$> rows)).
  pose proof (decode_encode_utf_8 _ _ Hb) as Hd.
  rewrite (list_fmap_compose text_cells row_to_vcard) in *.
  rewrite (list_fmap_compose text_cells vcard_lines).
  split_and!; [done..| | | |].
  - intros ->. by vm_compute in Hb; injection Hb as <-.
  - intros Hrows. apply payload_lines. by destruct rows.
  - destruct rows as [|r rows]; [done|]. rewrite payload_lines by done.
    rewrite filter_concat_count, !length_fmap; [done|].
    apply Forall_fmap, Forall_true. intros r'. apply frame_count.
  - destruct rows as [|r rows]; [done|]. rewrite payload_lines by done.
    rewrite filter_concat_count, !length_fmap; [done|].
    apply Forall_fmap, Forall_true. intros r'. apply frame_count.
Qed.

(** A request with a file of a header 姓,名 and one row. *)
Definition one_row_request : gmap str bytes := {[ u "file" := marked_file ]}.

Lemma convert_payload_witness :
  ∃ data rows text,
    one_row_request !! u "file" = Some data
    ∧ read_csv_rows (fun _ => None) (fun _ => None) data = inr rows
    ∧ decode_utf_8
        (list_byte_of_string "BEGIN:VCARD" ++ [x0a]%byte
         ++ list_byte_of_string "VERSION:3.0" ++ [x0a]%byte
         ++ list_byte_of_string "N:山田;太郎;;;" ++ [x0a]%byte
         ++ list_byte_of_string "FN:太郎 山田" ++ [x0a]%byte
         ++ list_byte_of_string "END:VCARD") = Some text
    ∧ length rows = 1%nat.
Proof.
  destruct (convert_payload (fun _ => None) (fun _ => None) one_row_request
    (list_byte_of_string "BEGIN:VCARD" ++ [x0a]%byte
     ++ list_byte_of_string "VERSION:3.0" ++ [x0a]%byte
     ++ list_byte_of_string "N:山田;太郎;;;" ++ [x0a]%byte
     ++ list_byte_of_string "FN:太郎 山田" ++ [x0a]%byte
     ++ list_byte_of_string "END:VCARD"))
    as (data & rows & text & Hf & Hr & Hd & _ & _ & Hn & _).
  - vm_compute. reflexivity.
  - exists data, rows, text. split_and!; [done..|].
    rewrite <- Hn. revert Hd. vm_compute. by intros [= <-].
Defined.

(** ** The columns that reach the record *)

(** The columns whose cells can show in a record: the columns the
    transformer looks up, without the third address lines. *)
Definition third_address_lines : list str :=
  [u "HOME住所3"; u "WORK住所3"; u "会社住所3"].

Definition columns_written : list str :=
  filter (fun k => k ∉ third_address_lines) columns_read.

Section Written.
Variables r1 r2 : row.
Hypothesis H : ∀ k, k ∈ columns_written → r1 !! k = r2 !! k.

Lemma name_lines_written L : name_lines r1 L = name_lines r2 L.
Proof. unfold name_lines. same_cells H r1. done. Qed.

Lemma org_lines_written L : org_lines r1 L = org_lines r2 L.
Proof. unfold org_lines. same_cells H r1. done. Qed.

Lemma tel_lines_written L : tel_lines r1 L = tel_lines r2 L.
Proof.
  unfold tel_lines, phone_columns. cbn [fold_left]. same_cells H r1. done.
Qed.

Lemma mail_lines_written L : mail_lines r1 L = mail_lines r2 L.
Proof.
  unfold mail_lines, mail_columns. cbn [fold_left]. same_cells H r1. done.
Qed.

Lemma adr_from_row_written : adr_from_row r1 = adr_from_row r2.
Proof.
  unfold adr_from_row, adr_vars, get.
  rewrite (H (u "宛先")) by in_list.
  destruct (str_eqb _ (u "自宅")).
  - change (str_eqb (u "HOME") (u "HOME")) with true. cbv iota.
    same_cells H r1. by destruct (adr_split _) as [[p c] s].
  - change (str_eqb (u "WORK") (u "HOME")) with false. cbv iota.
    same_cells H r1. by destruct (adr_split _) as [[p c] s].
Qed.

Lemma adr_lines_written L : adr_lines r1 L = adr_lines r2 L.
Proof. unfold adr_lines. by rewrite adr_from_row_written. Qed.

Lemma note_lines_written L : note_lines r1 L = note_lines r2 L.
Proof.
  unfold note_lines. change (range 1 4) with [1; 2; 3]. cbn [map].
  same_cells H r1. done.
Qed.

Lemma memo_lines_written L : memo_lines r1 L = memo_lines r2 L.
Proof.
  unfold memo_lines. change (range 1 6) with [1; 2; 3; 4; 5].
  cbn [fold_left]. unfold memo_step. same_cells H r1. done.
Qed.

Lemma vcard_lines_written : vcard_lines r1 = vcard_lines r2.
Proof.
  unfold vcard_lines.
  by rewrite name_lines_written, org_lines_written, tel_lines_written,
    mail_lines_written, adr_lines_written, note_lines_written,
    memo_lines_written.
Qed.
End Written.

(** X14. The record of a row is made of the cells of thirty-three columns
    and of nothing else: two rows with the same cells there give the same
    record.  The third address lines are not among them: the code reads
    the third line into a variable and never uses it. *)
Theorem third_address_line_dropped (r1 r2 : row) :
  (∀ k, k ∈ columns_written → r1 !! k = r2 !! k) →
  row_to_vcard r1 = row_to_vcard r2
  ∧ length columns_written = 33%nat
  ∧ Forall (fun k => k ∉ columns_written) third_address_lines.
Proof.
  intros H. split_and!.
  - unfold row_to_vcard. by rewrite (vcard_lines_written r1 r2 H).
  - by vm_compute.
  - apply (bool_decide_eq_true_1 _). vm_compute. reflexivity.
Qed.

(** A company address, with and without a third line. *)
Definition company_row : row :=
  {[ u "会社名" := u "山田商事"; u "会社住所1" := u "東京都千代田区丸の内1-1";
     u "会社住所2" := u "山田ビル" ]}.

Lemma third_address_line_dropped_witness :
  row_to_vcard (<[u "会社住所3" := u "5階"]> company_row)
    = row_to_vcard company_row.
Proof.
  refine (proj1 (third_address_line_dropped
                   (<[u "会社住所3" := u "5階"]> company_row) company_row _)).
  intros k Hk. apply lookup_insert_ne. intros <-. revert Hk.
  apply (bool_decide_eq_true_1 _). vm_compute. reflexivity.
Defined.

(** ** The [utf-8-sig] attempt *)

Lemma Byte_eqb_eq x y : Byte.eqb x y = true ↔ x = y.
Proof.
  split; [apply Byte.byte_dec_bl|apply Byte.byte_dec_lb].
Qed.

Section SigAttempt.
Variables decode_cp932 decode_shift_jis : bytes → option str.

Lemma decode_utf_8_sig_cases b :
  (∃ b', b = BOM_UTF8 ++ b'
         ∧ decode decode_cp932 decode_shift_jis utf_8_sig b = decode_utf_8 b')
  ∨ ((∀ b', b ≠ BOM_UTF8 ++ b')
     ∧ decode decode_cp932 decode_shift_jis utf_8_sig b = decode_utf_8 b).
Proof.
  destruct b as [|b0 [|b1 [|b2 b']]]; try (right; by split).
  cbn [decode].
  destruct (Byte.eqb b0 xef) eqn:E0; [apply Byte_eqb_eq in E0 as ->|];
    [destruct (Byte.eqb b1 xbb) eqn:E1; [apply Byte_eqb_eq in E1 as ->|];
      [destruct (Byte.eqb b2 xbf) eqn:E2; [apply Byte_eqb_eq in E2 as ->|]|]|];
    cbn [andb].
  - left. by exists b'.
  - right. split; [|done]. intros b'' [= ->]. by vm_compute in E2.
  - right. split; [|done]. intros b'' [= ->]. by vm_compute in E1.
  - right. split; [|done]. intros b'' [= ->]. by vm_compute in E0.
Qed.

Lemma decode_utf_8_marked b :
  decode_utf_8 (BOM_UTF8 ++ b) = cons 0xFEFF <$> decode_utf_8 b.
Proof.
  unfold decode_utf_8, BOM_UTF8. cbn [app map Byte.to_N].
  apply utf_8_decode_bom.
Qed.
End SigAttempt.

(** X15. The [utf-8-sig] codec fails on exactly the byte sequences on which
    the [utf-8] codec fails.  On bytes that do not begin with the
    byte-order mark the two decode alike, and the second attempt ends as
    the first did; on bytes that do, the first codec gives the text of the
    second with U+FEFF before it. *)
Theorem utf_8_sig_decodes_as_utf_8
    (decode_cp932 decode_shift_jis : bytes → option str) (b : bytes) :
  let decode := decode decode_cp932 decode_shift_jis in
  let attempt := attempt decode_cp932 decode_shift_jis in
  (decode utf_8_sig b = None ↔ decode utf_8 b = None)
  ∧ ((∀ b', b ≠ BOM_UTF8 ++ b') →
       decode utf_8_sig b = decode utf_8 b
       ∧ (∀ rows, attempt utf_8_sig b = inr rows ↔ attempt utf_8 b = inr rows)
       ∧ ((∃ e, attempt utf_8_sig b = inl e) ↔ (∃ e, attempt utf_8 b = inl e)))
  ∧ decode utf_8 (BOM_UTF8 ++ b)
      = cons 0xFEFF <$> decode utf_8_sig (BOM_UTF8 ++ b).
Proof.
  cbv zeta. split_and!.
  - destruct (decode_utf_8_sig_cases decode_cp932 decode_shift_jis b)
      as [(b' & -> & ->) | [_ ->]]; [|done].
    cbn [decode]. rewrite decode_utf_8_marked.
    by destruct (decode_utf_8 b').
  - intros Hb.
    destruct (decode_utf_8_sig_cases decode_cp932 decode_shift_jis b)
      as [(b' & -> & _) | [_ Hd]]; [by destruct (Hb b')|].
    split_and!; [done| |].
    + intros rows. unfold attempt. rewrite Hd. cbn [decode].
      by destruct (decode_utf_8 b) as [text|]; [destruct (csv_reader text)|].
    + unfold attempt. rewrite Hd. cbn [decode].
      destruct (decode_utf_8 b) as [text|]; [destruct (csv_reader text)|];
        split; intros [e He]; try done; by eexists.
  - destruct (decode_utf_8_sig_cases decode_cp932 decode_shift_jis
                (BOM_UTF8 ++ b)) as [(b' & E & ->) | [Hb _]].
    + apply app_inv_head in E as <-. cbn [decode]. apply decode_utf_8_marked.
    + by destruct (Hb b).
Qed.

(** X16. The rows are those of the [utf-8-sig] attempt only for a file
    that begins with the byte-order mark, is UTF-8, and whose text the CSV
    reader refuses with the mark and parses without it; the first attempt
    then failed in the reader, not in the codec. *)
Theorem utf_8_sig_reached
    (decode_cp932 decode_shift_jis : bytes → option str) (b : bytes)
    (e : exception) (rows : list (gmap str value)) :
  attempt decode_cp932 decode_shift_jis utf_8 b = inl e →
  attempt decode_cp932 decode_shift_jis utf_8_sig b = inr rows →
  read_csv_rows decode_cp932 decode_shift_jis b = inr rows
  ∧ e = csv_Error
  ∧ ∃ b' text records,
      b = BOM_UTF8 ++ b' ∧ decode_utf_8 b' = Some text
      ∧ csv_reader (0xFEFF :: text) = None
      ∧ csv_reader text = Some records
      ∧ rows = clean <$> DictReader records.
Proof.
  intros H1 H2.
  assert (Hr : read_csv_rows decode_cp932 decode_shift_jis b = inr rows).
  { unfold read_csv_rows, encodings. cbn [try_encodings]. by rewrite H1, H2. }
  split; [done|]. revert H1 H2. unfold attempt.
  destruct (decode_utf_8_sig_cases decode_cp932 decode_shift_jis b)
    as [(b' & -> & ->) | [_ ->]]; cbn [decode].
  - rewrite decode_utf_8_marked.
    destruct (decode_utf_8 b') as [text|] eqn:Hd; [|done].
    cbn [fmap option_fmap option_map].
    destruct (csv_reader (0xFEFF :: text)) eqn:Hm; [done|].
    destruct (csv_reader text) as [records|] eqn:Ht; [|done].
    intros [= <-] [= <-]. split; [done|]. by exists b', text, records.
  - destruct (decode_utf_8 b) as [text|]; [|done].
    by destruct (csv_reader text).
Qed.

(** A file with the mark whose header cell is quoted and holds a carriage
    return: with the mark the quote is no longer the first character of
    the cell. *)
Definition quoted_header_file : bytes :=
  [x22; x61; x0d; x62; x22; x0a; x31; x0a]%byte.

Lemma utf_8_sig_reached_witness :
  read_csv_rows (fun _ => None) (fun _ => None)
    (BOM_UTF8 ++ quoted_header_file)
    = inr [ {[ [0x61; 0x0D; 0x62] := VStr [0x31] ]} ].
Proof.
  refine (proj1 (utf_8_sig_reached (fun _ => None) (fun _ => None)
                   (BOM_UTF8 ++ quoted_header_file) csv_Error _ _ _)).
  - vm_compute. reflexivity.
  - vm_compute. reflexivity.
Defined.

(** ** The byte-order mark and the first column *)

(** Every row of a file holds the key that its first header cell trims
    to. *)
Lemma row_holds_header_key h hs rec :
  is_Some (clean (DictReader_row (h :: hs) rec) !! clean_key (Some h)).
Proof.
  apply clean_lookup_is_Some. exists (Some h). split; [|done].
  rewrite DictReader_row_items. apply assign_has_key. left.
  apply row_items_has_key. by left.
Qed.

(** The first cell of a record stands under the first header cell, when no
    other header cell trims to the same key. *)
Lemma first_column_shown h hs v vs :
  clean_key (Some h) ≠ [] →
  (∀ h', h' ∈ hs → clean_key (Some h') ≠ clean_key (Some h)) →
  clean (DictReader_row (h :: hs) (v :: vs)) !! clean_key (Some h)
    = Some (VStr v).
Proof.
  intros Hne Hhs. rewrite DictReader_row_items, row_items_cons, shown_item.
  - done.
  - intros key [-> | (h' & Hh' & ->)]%row_items_keys.
    + rewrite clean_key_None. by intros E.
    + by apply Hhs.
Qed.

(** The transformer does not see a first column whose header cell starts
    with the mark. *)
Lemma marked_column_unread h hs v vs :
  vcard_lines (text_cells (clean (DictReader_row ((0xFEFF :: h) :: hs) (v :: vs))))
    = vcard_lines (text_cells (clean (DictReader_row hs vs))).
Proof.
  apply vcard_lines_ext. intros k Hk. unfold text_cells.
  rewrite !lookup_omap, first_column_hidden; [done|].
  destruct (clean_key_bom h) as [h' ->]. intros <-.
  by destruct (proj1 (Forall_forall _ _) columns_read_unmarked _ Hk).
Qed.

(** C10. A file that begins with the byte-order mark and is UTF-8 behind
    it decodes with both codecs, [utf-8] keeping the mark as U+FEFF and
    [utf-8-sig] dropping it.  When the CSV reader parses the text with the
    mark, the first attempt, with [utf-8], succeeds and gives the result
    ([utf-8-sig] is not reached); the first header cell starts with U+FEFF
    and still does after trimming, while no column the transformer reads
    does; every row holds that key, with the first cell of its record when
    no other header cell trims to it; the record of a row is the record of
    the row without its first column, and under any key without the mark
    the row looks as if the first column were not there.  When the reader
    refuses the text with the mark, the first attempt fails in the reader
    and [utf-8-sig] is tried: it gives the rows when the reader parses the
    text without the mark, and fails in the reader otherwise. *)
Theorem bom_kept_in_first_header
    (decode_cp932 decode_shift_jis : bytes → option str)
    (b : bytes) (text : str) :
  decode_utf_8 b = Some text →
  let attempt := attempt decode_cp932 decode_shift_jis in
  let decode := decode decode_cp932 decode_shift_jis in
  let read_csv_rows := read_csv_rows decode_cp932 decode_shift_jis in
  head encodings = Some utf_8
  ∧ encodings !! 1%nat = Some utf_8_sig
  ∧ decode utf_8 (BOM_UTF8 ++ b) = Some (0xFEFF :: text)
  ∧ decode utf_8_sig (BOM_UTF8 ++ b) = Some text
  ∧ Forall (fun k => head k ≠ Some 0xFEFF ∧ k ≠ []) columns_read
  ∧ (∀ records, csv_reader (0xFEFF :: text) = Some records →
       attempt utf_8 (BOM_UTF8 ++ b) = inr (clean <$> DictReader records)
       ∧ read_csv_rows (BOM_UTF8 ++ b) = inr (clean <$> DictReader records)
       ∧ ∃ h hs rest,
           records = ((0xFEFF :: h) :: hs) :: rest
           ∧ DictReader records =
               DictReader_row ((0xFEFF :: h) :: hs)
                 <$> filter (fun rec => rec ≠ []) rest
           ∧ (∃ h', clean_key (Some (0xFEFF :: h)) = 0xFEFF :: h')
           ∧ Forall (fun row => is_Some (row !! clean_key (Some (0xFEFF :: h))))
               (clean <$> DictReader records)
           ∧ ∀ v vs,
               ((∀ h', h' ∈ hs →
                   clean_key (Some h') ≠ clean_key (Some (0xFEFF :: h))) →
                clean (DictReader_row ((0xFEFF :: h) :: hs) (v :: vs))
                  !! clean_key (Some (0xFEFF :: h)) = Some (VStr v))
               ∧ vcard_lines
                   (text_cells
                      (clean (DictReader_row ((0xFEFF :: h) :: hs) (v :: vs))))
                 = vcard_lines (text_cells (clean (DictReader_row hs vs)))
               ∧ ∀ k, head k ≠ Some 0xFEFF →
                   clean (DictReader_row ((0xFEFF :: h) :: hs) (v :: vs)) !! k
                     = clean (DictReader_row hs vs) !! k
                   ∧ (k ≠ [] → (∀ h', h' ∈ hs → clean_key (Some h') ≠ k) →
                      clean (DictReader_row ((0xFEFF :: h) :: hs) (v :: vs))
                        !! k = None))
  ∧ (csv_reader (0xFEFF :: text) = None →
       attempt utf_8 (BOM_UTF8 ++ b) = inl csv_Error
       ∧ (∀ records, csv_reader text = Some records →
            attempt utf_8_sig (BOM_UTF8 ++ b)
              = inr (clean <$> DictReader records)
            ∧ read_csv_rows (BOM_UTF8 ++ b)
                = inr (clean <$> DictReader records))
       ∧ (csv_reader text = None →
            attempt utf_8_sig (BOM_UTF8 ++ b) = inl csv_Error)).
Proof.
  intros Hd. cbv zeta.
  assert (Hd1 : decode decode_cp932 decode_shift_jis utf_8 (BOM_UTF8 ++ b)
                  = Some (0xFEFF :: text)).
  { cbn [decode]. by rewrite decode_utf_8_marked, Hd. }
  assert (Hd2 : decode decode_cp932 decode_shift_jis utf_8_sig (BOM_UTF8 ++ b)
                  = Some text).
  { destruct (decode_utf_8_sig_cases decode_cp932 decode_shift_jis
                (BOM_UTF8 ++ b)) as [(b' & E & ->) | [Hb _]].
    - by apply app_inv_head in E as <-.
    - by destruct (Hb b). }
  split_and!; [done|done|done|done|apply columns_read_unmarked| |].
  - intros records Hr.
    assert (Ha : attempt decode_cp932 decode_shift_jis utf_8 (BOM_UTF8 ++ b)
                   = inr (clean <$> DictReader records)).
    { unfold attempt. by rewrite Hd1, Hr. }
    destruct (csv_reader_marked _ _ Hr) as (h & hs & rest & ->).
    split_and!; [done| |].
    { unfold read_csv_rows, encodings. cbn [try_encodings]. by rewrite Ha. }
    exists h, hs, rest.
    assert (Hne : ∀ k, head k ≠ Some 0xFEFF →
              clean_key (Some (0xFEFF :: h)) ≠ k).
    { intros k Hk. destruct (clean_key_bom h) as [h' ->]. intros <-.
      by apply Hk. }
    split_and!; [done|done|apply clean_key_bom| |].
    + cbn [DictReader]. rewrite <- list_fmap_compose.
      apply Forall_fmap, Forall_true. intros rec.
      apply row_holds_header_key.
    + intros v vs. split_and!.
      * apply first_column_shown.
        destruct (clean_key_bom h) as [h' ->]. done.
      * apply marked_column_unread.
      * intros k Hk. split; [by apply first_column_hidden, Hne|].
        intros Hk' Hhs. rewrite first_column_hidden by by apply Hne.
        apply clean_lookup_None. intros kv Hin.
        rewrite DictReader_row_items in Hin.
        apply assign_keys in Hin as [Hin|Hin]; [|by apply elem_of_nil in Hin].
        apply row_items_keys in Hin as [-> | (h' & Hh' & ->)].
        -- intros E. apply Hk'. by rewrite <- E.
        -- by apply Hhs.
  - intros Hm.
    assert (Ha : attempt decode_cp932 decode_shift_jis utf_8 (BOM_UTF8 ++ b)
                   = inl csv_Error).
    { unfold attempt. by rewrite Hd1, Hm. }
    split_and!; [done| |].
    + intros records Hr.
      assert (Hs : attempt decode_cp932 decode_shift_jis utf_8_sig
                     (BOM_UTF8 ++ b) = inr (clean <$> DictReader records)).
      { unfold attempt. by rewrite Hd2, Hr. }
      split; [done|].
      unfold read_csv_rows, encodings. cbn [try_encodings].
      by rewrite Ha, Hs.
    + intros Hr. unfold attempt. by rewrite Hd2, Hr.
Qed.

Lemma bom_kept_in_first_header_witness :
  read_csv_rows (fun _ => None) (fun _ => None) (BOM_UTF8 ++ marked_file)
    = inr (clean <$> DictReader
             [[0xFEFF :: u "姓"; u "名"]; [u "山田"; u "太郎"]]).
Proof.
  destruct (bom_kept_in_first_header (fun _ => None) (fun _ => None)
              marked_file (u "姓,名" ++ [0x0A] ++ u "山田,太郎" ++ [0x0A]))
    as (_ & _ & _ & _ & _ & Hparsed & _).
  - vm_compute. reflexivity.
  - destruct (Hparsed [[0xFEFF :: u "姓"; u "名"]; [u "山田"; u "太郎"]])
      as (_ & Hrows & _); [|exact Hrows].
    vm_compute. reflexivity.
Defined.

(** A file with the mark whose first header cell 姓 is quoted and ends with
    a carriage return, and one row 山田,太郎.  The bytes are UTF-8 and the
    text behind the mark is CSV, yet the attempt with [utf-8] fails in the
    reader: behind the mark the quote no longer opens the cell.
    [utf-8-sig] gives the row; its first key is 姓, without U+FEFF, and the
    family name reaches the record. *)
Definition marked_quoted_file : bytes :=
  BOM_UTF8 ++ [x22]%byte ++ list_byte_of_string "姓" ++ [x0d; x22]%byte
    ++ list_byte_of_string ",名" ++ [x0a]%byte
    ++ list_byte_of_string "山田,太郎" ++ [x0a]%byte.

Definition marked_quoted_row : gmap str value :=
  list_to_map [(u "姓", VStr (u "山田")); (u "名", VStr (u "太郎"))].

Lemma marked_quoted_header_loses_mark :
  (∃ text, decode_utf_8 marked_quoted_file = Some (0xFEFF :: text)
           ∧ csv_reader text
               = Some [[u "姓" ++ [0x0D]; u "名"]; [u "山田"; u "太郎"]])
  ∧ attempt (fun _ => None) (fun _ => None) utf_8 marked_quoted_file
      = inl csv_Error
  ∧ read_csv_rows (fun _ => None) (fun _ => None) marked_quoted_file
      = inr [marked_quoted_row]
  ∧ marked_quoted_row !! u "姓" = Some (VStr (u "山田"))
  ∧ vcard_lines (text_cells marked_quoted_row) =
      [u "BEGIN:VCARD"; u "VERSION:3.0"; u "N:山田;太郎;;;"; u "FN:太郎 山田";
       u "END:VCARD"].
Proof.
  split_and!; [|vm_compute; reflexivity..].
  eexists. split; vm_compute; reflexivity.
Qed.

(** ** Plain files *)

(** A cell that needs no quoting, and is no longer than the reader's field
    limit; a record of such cells that is not the empty line. *)
Definition plain_field (f : str) : Prop :=
  Forall (fun c => c ∉ [0x2C; 0x22; 0x0A; 0x0D]) f
  ∧ N.of_nat (length f) ≤ field_limit.

Definition plain_record (rec : list str) : Prop :=
  rec ≠ [] ∧ rec ≠ [[]] ∧ Forall plain_field rec.

(** The text of such records: the cells with commas between them, a line
    feed after every record. *)
Definition csv_line (rec : list str) : str := join [0x2C] rec ++ [0x0A].

Definition csv_text (records : list (list str)) : str :=
  concat (csv_line <$> records).

Lemma plain_char c :
  c ∉ [0x2C; 0x22; 0x0A; 0x0D] →
  is_newline c = false ∧ (c =? 0x22) = false ∧ (c =? 0x2C) = false.
Proof.
  rewrite !not_elem_of_cons. intros (? & ? & ? & ? & _).
  unfold is_newline. by rewrite !(proj2 (N.eqb_neq _ _)).
Qed.

Lemma feed_field_chars f : ∀ acc fs rest,
  Forall (fun c => c ∉ [0x2C; 0x22; 0x0A; 0x0D]) f →
  N.of_nat (length (acc ++ f)) ≤ field_limit →
  feed {| state := IN_FIELD; fields := fs; field := acc |} (f ++ rest)
    = feed {| state := IN_FIELD; fields := fs; field := acc ++ f |} rest.
Proof.
  induction f as [|c f IH]; intros acc fs rest Hf Hl.
  - by rewrite app_nil_r.
  - apply Forall_cons in Hf as [(Hn & Hq & Hc)%plain_char Hf].
    cbn [app feed]. unfold parse_process_char. cbn [state].
    rewrite Hn, Hc. unfold parse_add_char. cbn [field fields state].
    rewrite length_app in Hl. cbn [length] in Hl.
    destruct (N.leb_spec field_limit (N.of_nat (length acc))); [lia|].
    cbn [mbind option_bind]. rewrite IH; [|done|].
    + by rewrite <- app_assoc.
    + rewrite !length_app. cbn [length]. lia.
Qed.

Lemma feed_field f fs st rest :
  plain_field f → f ≠ [] → st = START_FIELD ∨ st = START_RECORD →
  feed {| state := st; fields := fs; field := [] |} (f ++ rest)
    = feed {| state := IN_FIELD; fields := fs; field := f |} rest.
Proof.
  intros [Hf Hl] Hne Hst. destruct f as [|c f]; [done|].
  pose proof Hf as [(Hn & Hq & Hc)%plain_char Hf']%Forall_cons.
  cbn [app feed].
  assert (parse_process_char {| state := st; fields := fs; field := [] |}
            (Some c)
          = Some {| state := IN_FIELD; fields := fs; field := [c] |}) as ->.
  { unfold parse_process_char, start_field. cbn [state].
    destruct Hst as [-> | ->]; rewrite Hn, Hq, Hc; reflexivity. }
  cbn [mbind option_bind].
  by rewrite (feed_field_chars f [c] fs rest).
Qed.

Lemma feed_record rec : ∀ fs st,
  Forall plain_field rec → rec ≠ [] →
  st = START_FIELD ∨ (st = START_RECORD ∧ rec ≠ [[]]) →
  feed {| state := st; fields := fs; field := [] |} (csv_line rec)
    = Some {| state := START_RECORD; fields := fs ++ rec; field := [] |}.
Proof.
  unfold csv_line.
  induction rec as [|f rec IH]; intros fs st Hrec Hne Hst; [done|].
  apply Forall_cons in Hrec as [Hf Hrec].
  assert (Hst' : st = START_FIELD ∨ st = START_RECORD) by (by destruct Hst as [?|[? _]]; auto).
  destruct rec as [|g rec].
  - cbn [join]. destruct f as [|c f].
    + destruct Hst as [-> | [_ ?]]; [|done]. reflexivity.
    + rewrite feed_field by done. reflexivity.
  - change (join [0x2C] (f :: g :: rec) ++ [0x0A])
      with ((f ++ 0x2C :: join [0x2C] (g :: rec)) ++ [0x0A]).
    rewrite <- app_assoc.
    assert (Hnext : ∀ fs', feed {| state := START_FIELD; fields := fs';
                                   field := [] |}
                             (join [0x2C] (g :: rec) ++ [0x0A])
                           = Some {| state := START_RECORD;
                                     fields := fs' ++ g :: rec; field := [] |}).
    { intros fs'. apply IH; [done|done|by left]. }
    destruct f as [|c f].
    + cbn [app feed].
      assert (parse_process_char {| state := st; fields := fs; field := [] |}
                (Some 0x2C)
              = Some {| state := START_FIELD; fields := fs ++ [[]];
                        field := [] |}) as ->
        by (by destruct Hst' as [-> | ->]).
      cbn [mbind option_bind]. rewrite Hnext. by rewrite <- app_assoc.
    + rewrite feed_field by done. cbn [app feed].
      change (parse_process_char
                {| state := IN_FIELD; fields := fs; field := c :: f |}
                (Some 0x2C))
        with (Some {| state := START_FIELD; fields := fs ++ [c :: f];
                      field := [] |}).
      cbn [mbind option_bind]. rewrite Hnext. by rewrite <- app_assoc.
Qed.

Lemma reader_records_plain records :
  Forall plain_record records →
  reader_records parse_reset (csv_line <$> records) = Some records.
Proof.
  induction 1 as [|rec records (Hne & Hne' & Hrec) _ IH]; [done|].
  cbn [fmap list_fmap reader_records].
  pose proof (feed_record rec [] START_RECORD Hrec Hne
                (or_intror (conj eq_refl Hne'))) as Hf.
  change {| state := START_RECORD; fields := []; field := [] |}
    with parse_reset in Hf.
  rewrite Hf. cbn [mbind option_bind state fields app].
  rewrite bool_decide_eq_true_2 by done.
  by rewrite IH.
Qed.

Lemma readlines_line l rest :
  one_line l → readlines (l ++ 0x0A :: rest) = (l ++ [0x0A]) :: readlines rest.
Proof.
  induction 1 as [|c l Hc _ IH]; [done|].
  cbn [app readlines]. rewrite (proj2 (N.eqb_neq _ _)) by done.
  by rewrite IH.
Qed.

Lemma plain_field_one_line f : plain_field f → one_line f.
Proof.
  intros [Hf _]. eapply Forall_impl; [exact Hf|]. cbv beta.
  intros c Hc ->. apply Hc. by do 2 right; left.
Qed.

Lemma readlines_plain records :
  Forall plain_record records →
  readlines (csv_text records) = csv_line <$> records.
Proof.
  unfold csv_text.
  induction 1 as [|rec records (_ & _ & Hrec) _ IH]; [done|].
  cbn [fmap list_fmap concat]. unfold csv_line at 1.
  rewrite <- app_assoc. cbn [app]. rewrite readlines_line.
  - by rewrite IH.
  - apply join_one_line; [by repeat constructor|].
    eapply Forall_impl; [exact Hrec|]. apply plain_field_one_line.
Qed.

Lemma csv_reader_plain records :
  Forall plain_record records → csv_reader (csv_text records) = Some records.
Proof.
  intros H. unfold csv_reader.
  by rewrite readlines_plain, reader_records_plain.
Qed.

(** X17. A file that is the UTF-8 encoding of plain records (cells without
    comma, quote and line break, no longer than the field limit, with a
    line feed after every record) is read by the first attempt, and the
    rows are the dictionaries of its records under the first record as
    header. *)
Theorem read_csv_rows_plain
    (decode_cp932 decode_shift_jis : bytes → option str)
    (records : list (list str)) (b : bytes) :
  Forall plain_record records →
  encode_utf_8 (csv_text records) = Some b →
  csv_reader (csv_text records) = Some records
  ∧ read_csv_rows decode_cp932 decode_shift_jis b
      = inr (clean <$> DictReader records).
Proof.
  intros Hrec Hb. pose proof (csv_reader_plain _ Hrec) as Hr.
  split; [done|]. apply decode_encode_utf_8 in Hb.
  unfold read_csv_rows, encodings. cbn [try_encodings]. unfold attempt.
  cbn [decode]. by rewrite Hb, Hr.
Qed.

Lemma read_csv_rows_plain_witness :
  read_csv_rows (fun _ => None) (fun _ => None) marked_file
    = inr (clean <$> DictReader [[u "姓"; u "名"]; [u "山田"; u "太郎"]]).
Proof.
  refine (proj2 (read_csv_rows_plain (fun _ => None) (fun _ => None)
                   [[u "姓"; u "名"]; [u "山田"; u "太郎"]] marked_file _ _)).
  - repeat constructor; try done;
      apply (bool_decide_eq_true_1 _); vm_compute; reflexivity.
  - vm_compute. reflexivity.
Defined.

(** ** The mobile pattern looks at the head of the number *)

Lemma startswith_take p : ∀ s n,
  (length p ≤ n)%nat → startswith (take n s) p = startswith s p.
Proof.
  induction p as [|c p IH]; intros s n Hn; [done|].
  destruct n as [|n]; [cbn in Hn; lia|].
  destruct s as [|d s]; [done|]. cbn [take startswith].
  destruct (d =? c); [|done]. apply IH. cbn in Hn. lia.
Qed.

Lemma startswith_longer s t p :
  startswith s p = true → startswith (s ++ t) p = true.
Proof.
  intros [rest ->]%startswith_app. rewrite <- app_assoc.
  apply startswith_prefix.
Qed.

Lemma is_mobile_take num : is_mobile (take 6 num) = is_mobile num.
Proof.
  unfold is_mobile.
  assert (H : Forall (fun p => (length p ≤ 6)%nat) mobile_prefixes)
    by (apply (bool_decide_eq_true_1 _); vm_compute; reflexivity).
  induction H as [|p ps Hp _ IH]; [done|].
  cbn [existsb]. by rewrite startswith_take, IH.
Qed.

Lemma is_mobile_longer num t : is_mobile num = true → is_mobile (num ++ t) = true.
Proof.
  unfold is_mobile. rewrite !existsb_exists.
  intros (p & Hp & Hs). exists p. split; [done|]. by apply startswith_longer.
Qed.

(** X18. [detect_phone_type] answers [CELL] or [WORK], and it looks only at
    the first six characters of the number: what follows them changes
    nothing, and a number that is [CELL] stays [CELL] with anything
    appended. *)
Theorem detect_phone_type_head (num t : str) :
  (detect_phone_type num = u "CELL" ∨ detect_phone_type num = u "WORK")
  ∧ detect_phone_type (take 6 num) = detect_phone_type num
  ∧ (detect_phone_type num = u "CELL" →
     detect_phone_type (num ++ t) = u "CELL").
Proof.
  rewrite !detect_phone_type_spec, is_mobile_take. split_and!.
  - destruct (is_mobile num); auto.
  - done.
  - destruct (is_mobile num) eqn:E; [|by vm_compute].
    intros _. by rewrite (is_mobile_longer _ t E).
Qed.
